(** * ssh/buffer.go and ssh/cancelable_bufio.go: a shallow embedding

    The development has two parts.

    - [buffer] (ssh/buffer.go): the linked list of byte runs shared by one
      producer ([write], [eof]) and one consumer ([ReadWithContext]).  The
      elements live in an arena addressed by index, pointers are optional
      indices ([None] is Go's nil), and every dereference that Go would
      panic on is a [Panic] here.  Calls on one buffer do not overlap: each
      call runs to completion, together with the worker goroutine that
      executes the submitted closures, before the next one starts.  What is
      left of the scheduler is the choice each [select] statement makes; a
      call of [ReadWithContext] takes that choice, one per loop iteration,
      as its context argument.

    - the deadline wrappers and [tryCancelReader] / [tryCancelWriter]
      (ssh/cancelable_bufio.go): an [io.Reader] or [io.Writer] value is a
      state together with the optional deadline setter of its dynamic type;
      every function also reports the calls it performed on the object. *)

From Stdlib Require Import ZArith Lia.
From stdpp Require Import base tactics option list numbers strings.

(** ** Outcomes of a call *)

(** A call returns, panics (nil dereference, send on or close of a closed
    channel), or has not returned within the steps it was given. *)
Inductive outcome (A : Type) : Type :=
| Ret (a : A)
| Panic
| NoRet.
Arguments Ret {A} a.
Arguments Panic {A}.
Arguments NoRet {A}.

#[global] Instance outcome_ret : MRet outcome := @Ret.
#[global] Instance outcome_bind : MBind outcome := λ A B f m,
  match m with
  | Ret a => f a
  | Panic => Panic
  | NoRet => NoRet
  end.

(** The error values the two files produce; Go's nil error is [None]. *)
Inductive error : Type :=
| unsupported
| context_Canceled
| io_EOF
| errorString (msg : string).

#[global] Instance error_eq_dec : EqDecision error.
Proof. solve_decision. Defined.

(** ** ssh/buffer.go *)

Abbreviation bytes := (list Byte.byte).

(** A pointer to an element: an index into the arena, or nil. *)
Abbreviation ptr := (option nat).

(** type element struct { buf []byte; next *element } *)
Record element : Type := Element {
  buf : bytes;
  next : ptr
}.

Inductive chan_state : Type := ChOpen | ChClosed.

(** type buffer struct: [mem] is the arena holding every element allocated
    so far; [opCh] and [finCh] record whether the channel has been closed.
    The mutex [mu] has no state of its own between calls. *)
Record buffer : Type := Buffer {
  mem : list element;
  opCh : chan_state;
  finCh : chan_state;
  head : ptr;
  tail : ptr;
  closed : bool
}.

Definition set_mem (b : buffer) (m : list element) : buffer :=
  Buffer m (opCh b) (finCh b) (head b) (tail b) (closed b).
Definition set_head (b : buffer) (p : ptr) : buffer :=
  Buffer (mem b) (opCh b) (finCh b) p (tail b) (closed b).
Definition set_tail (b : buffer) (p : ptr) : buffer :=
  Buffer (mem b) (opCh b) (finCh b) (head b) p (closed b).

(** [*p]: nil and dangling pointers panic. *)
Definition load (m : list element) (p : ptr) : outcome element :=
  match p with
  | Some a => match m !! a with Some e => Ret e | None => Panic end
  | None => Panic
  end.

(** [*p = e] *)
Definition store (m : list element) (p : ptr) (e : element)
  : outcome (list element) :=
  match p with
  | Some a => if decide (a < length m) then Ret (<[a:=e]> m) else Panic
  | None => Panic
  end.

(** [new(element)], [&element{...}]: the next free index of the arena. *)
Definition alloc (m : list element) (e : element) : list element * ptr :=
  (m ++ [e], Some (length m)).

(** [close(ch)]: closing a closed channel panics. *)
Definition close (c : chan_state) : outcome chan_state :=
  match c with
  | ChOpen => Ret ChClosed
  | ChClosed => Panic
  end.

(** func newBuffer() *buffer.  The worker goroutine it starts runs the
    closures received on [opCh]; in the functions below that is the part
    marked as executed by the worker. *)
Definition newBuffer : buffer :=
  let '(m, e) := alloc [] (Element [] None) in
  Buffer m ChOpen ChOpen e e false.

(** func (b *buffer) write(buf []byte): sending on the closed [opCh]
    panics; otherwise the worker links a new element after [tail] and
    acknowledges on [doneCh]. *)
Definition write (b : buffer) (data : bytes) : outcome buffer :=
  match opCh b with
  | ChClosed => Panic
  | ChOpen =>
      let '(m, e) := alloc (mem b) (Element data None) in
      t ← load m (tail b);
      m' ← store m (tail b) (Element (buf t) e);
      Ret (set_tail (set_mem b m') e)
  end.

(** func (b *buffer) eof(): when [opCh] is closed the worker leaves its
    range loop and closes [finCh]. *)
Definition eof (b : buffer) : outcome buffer :=
  if closed b then Ret b
  else
    o ← close (opCh b);
    f ← close (finCh b);
    Ret (Buffer (mem b) o f (head b) (tail b) true).

(** The builtin [copy(dst, src)]: the destination afterwards and the
    number of bytes copied. *)
Definition copy (dst src : bytes) : bytes * nat :=
  let r := length dst `min` length src in
  (take r src ++ drop r dst, r).

(** The loop of [read].  [filled] is the part of the caller's slice in front
    of the window [dst] that the loop has re-sliced away; one unit of fuel
    is one evaluation of the loop condition. *)
Fixpoint read_loop (fuel : nat) (b : buffer) (filled dst : bytes) (n : nat)
  : outcome (buffer * bytes * nat) :=
  match fuel with
  | 0 => NoRet
  | S fuel =>
      if decide (0 < length dst) then
        h ← load (mem b) (head b);
        if decide (0 < length (buf h)) then
          let '(dst', r) := copy dst (buf h) in
          m' ← store (mem b) (head b) (Element (drop r (buf h)) (next h));
          read_loop fuel (set_mem b m') (filled ++ take r dst') (drop r dst')
            (n + r)
        else if decide (length (buf h) = 0 ∧ head b ≠ tail b) then
          read_loop fuel (set_head b (next h)) filled dst n
        else Ret (b, filled ++ dst, n)
      else Ret (b, filled ++ dst, n)
  end.

(** func (b *buffer) read(buf []byte) (n int): returns the buffer, the
    caller's slice and [n].  The loop copies from or leaves an element at
    every step but the last, so it evaluates its condition at most twice
    per allocated element when the list is well formed ([read_returns]). *)
Definition read (b : buffer) (dst : bytes) : outcome (buffer * bytes * nat) :=
  read_loop (2 * length (mem b) + 1) b [] dst 0.

(** The case a [select] statement of [ReadWithContext] takes: the receive
    from [ch] or [finCh], or the receive from [ctx.Done()].  The second is
    possible only once the token has fired; the first is the only one a
    token that never fires allows. *)
Inductive select_case : Type := RecvData | RecvDone.

#[global] Instance select_case_eq_dec : EqDecision select_case.
Proof. solve_decision. Defined.

(** The loop labelled [outer]: [ctx] lists the case taken by the select of
    each iteration, [n] and the returned error are the named results.

    On a closed buffer the select comes first; its data case needs [finCh]
    closed, and [read] runs after it, in the caller.  On an open buffer the
    closure [ch <- b.read(buf)] is sent on [opCh] before the select: the
    send on the unbuffered channel completes when the worker has taken the
    closure, the worker then runs it whatever the select does, and [ch] has
    room for the count, so [read] has taken effect on the buffer and on the
    caller's slice in both cases of the select; only the data case assigns
    the count to [n]. *)
Fixpoint ReadWithContext_loop (ctx : list select_case) (b : buffer)
    (dst : bytes) (n : nat) : outcome (buffer * bytes * nat * option error) :=
  if decide (0 < length dst) then
    match ctx with
    | [] => NoRet
    | sel :: ctx =>
        if closed b then
          match sel with
          | RecvDone => Ret (b, dst, n, Some context_Canceled)
          | RecvData =>
              match finCh b with
              | ChOpen => NoRet
              | ChClosed =>
                  '(b', dst', n') ← read b dst;
                  if decide (0 < n') then Ret (b', dst', n', None)
                  else Ret (b', dst', n', Some io_EOF)
              end
          end
        else
          match opCh b with
          | ChClosed => Panic
          | ChOpen =>
              '(b', dst', r) ← read b dst;
              match sel with
              | RecvDone => Ret (b', dst', n, Some context_Canceled)
              | RecvData =>
                  if decide (0 < r) then Ret (b', dst', r, None)
                  else ReadWithContext_loop ctx b' dst' r
              end
          end
    end
  else Ret (b, dst, n, None).

(** func (b *buffer) ReadWithContext(ctx context.Context, buf []byte)
    (n int, err error) *)
Definition ReadWithContext (ctx : list select_case) (b : buffer) (dst : bytes)
  : outcome (buffer * bytes * nat * option error) :=
  ReadWithContext_loop ctx b dst 0.

(** The bytes queued in the list: the byte runs met from [head] up to and
    including [tail], following the [next] pointers. *)
Fixpoint walk (fuel : nat) (m : list element) (p t : ptr) : bytes :=
  match fuel with
  | 0 => []
  | S fuel =>
      match load m p with
      | Ret e => buf e ++ (if decide (p = t) then [] else walk fuel m (next e) t)
      | _ => []
      end
  end.

Definition queued (b : buffer) : bytes :=
  walk (length (mem b)) (mem b) (head b) (tail b).

(** The representation invariant: the list is well formed and its byte
    runs, from [head] to [tail], are [segs].  Elements are allocated at the
    end of the arena and linked after the previous last one, so the list
    occupies the last [length segs] cells, each pointing to the next cell.
    The channels are closed exactly when [closed] is set. *)
Record holds (b : buffer) (segs : list bytes) : Prop := Holds {
  holds_head : head b = Some (length (mem b) - length segs);
  holds_tail : tail b = Some (length (mem b) - 1);
  holds_segs : buf <$> drop (length (mem b) - length segs) (mem b) = segs;
  holds_pos : 0 < length segs;
  holds_next : ∀ i e, mem b !! i = Some e →
    next e = if decide (S i < length (mem b)) then Some (S i) else None;
  holds_opCh : opCh b = if closed b then ChClosed else ChOpen;
  holds_finCh : finCh b = opCh b
}.

(** The number of loop steps [read] may skip because the first element is
    already empty. *)
Definition head_empty (segs : list bytes) : nat :=
  match segs with
  | [] :: _ => 1
  | _ => 0
  end.

(** *** Callers of the buffer *)

(** The producer: one [write] per element of [chunks]. *)
Fixpoint write_all (b : buffer) (chunks : list bytes) : outcome buffer :=
  match chunks with
  | [] => Ret b
  | a :: chunks => b' ← write b a; write_all b' chunks
  end.

(** [eof] called [k] times in a row. *)
Fixpoint eof_times (k : nat) (b : buffer) : outcome buffer :=
  match k with
  | 0 => Ret b
  | S k => b' ← eof b; eof_times k b'
  end.

(** What one call of [ReadWithContext] hands back to the consumer. *)
Record read_result : Type := ReadResult {
  res_dst : bytes;
  res_n : nat;
  res_err : option error
}.

(** The bytes a call delivered: the first [n] bytes of its destination. *)
Definition received (r : read_result) : bytes := take (res_n r) (res_dst r).

(** The consumer: one [ReadWithContext] per entry of [calls], each with its
    own context and destination. *)
Fixpoint read_all (b : buffer) (calls : list (list select_case * bytes))
  : outcome (buffer * list read_result) :=
  match calls with
  | [] => Ret (b, [])
  | (ctx, dst) :: calls =>
      '(b', dst', n, err) ← ReadWithContext ctx b dst;
      '(b'', rs) ← read_all b' calls;
      Ret (b'', ReadResult dst' n err :: rs)
  end.

(** The number of bytes the consumer asked for: the destination lengths
    summed. *)
Definition requested (calls : list (list select_case * bytes)) : nat :=
  sum_list_with (λ c, length c.2) calls.

(** A token that never fires lets every select take its data case; the
    list is as long as the number of selects the call may perform. *)
Definition never_fires (ctx : list select_case) : Prop :=
  ctx ≠ [] ∧ Forall (λ sel, sel = RecvData) ctx.

(** Producer and consumer calls in one sequence. *)
Inductive op : Type :=
| OpWrite (data : bytes)
| OpEof
| OpRead (ctx : list select_case) (dst : bytes).

Fixpoint run (b : buffer) (ops : list op)
  : outcome (buffer * list read_result) :=
  match ops with
  | [] => Ret (b, [])
  | OpWrite data :: ops => b' ← write b data; run b' ops
  | OpEof :: ops => b' ← eof b; run b' ops
  | OpRead ctx dst :: ops =>
      '(b', dst', n, err) ← ReadWithContext ctx b dst;
      '(b'', rs) ← run b' ops;
      Ret (b'', ReadResult dst' n err :: rs)
  end.

(** The bytes appended by the writes of [ops], in order. *)
Fixpoint written (ops : list op) : bytes :=
  match ops with
  | [] => []
  | OpWrite data :: ops => data ++ written ops
  | _ :: ops => written ops
  end.

(** No select of a read of [ops] takes the [ctx.Done()] case. *)
Definition uncanceled (ops : list op) : Prop :=
  Forall (λ o, match o with
               | OpRead ctx _ => Forall (λ sel, sel = RecvData) ctx
               | _ => True
               end) ops.

(** No call of [ops] is a [write]. *)
Definition no_write (ops : list op) : Prop :=
  Forall (λ o, match o with OpWrite _ => False | _ => True end) ops.

(** *** A producer at work while a read is in progress

    [write] goes through the worker, which runs one closure at a time, and
    [eof] takes the mutex that [ReadWithContext] holds from its reading of
    [closed] until its closure is with the worker.  So the calls a producer
    completes while a read is in progress take effect between two
    iterations of the loop of the read, or before the first. *)
Inductive producer_call : Type :=
| PWrite (data : bytes)
| PEof.

Fixpoint produce (b : buffer) (ps : list producer_call) : outcome buffer :=
  match ps with
  | [] => Ret b
  | PWrite data :: ps => b' ← write b data; produce b' ps
  | PEof :: ps => b' ← eof b; produce b' ps
  end.

(** The bytes the writes of [ps] append, in order. *)
Fixpoint appended (ps : list producer_call) : bytes :=
  match ps with
  | [] => []
  | PWrite data :: ps => data ++ appended ps
  | PEof :: ps => appended ps
  end.

(** The loop of [ReadWithContext] with, for each iteration, the producer
    calls completed since the previous one and the case its select takes.
    The body is that of [ReadWithContext_loop]. *)
Fixpoint ReadWithContext_during
    (sched : list (list producer_call * select_case)) (b : buffer)
    (dst : bytes) (n : nat) : outcome (buffer * bytes * nat * option error) :=
  if decide (0 < length dst) then
    match sched with
    | [] => NoRet
    | (ps, sel) :: sched =>
        b ← produce b ps;
        if closed b then
          match sel with
          | RecvDone => Ret (b, dst, n, Some context_Canceled)
          | RecvData =>
              match finCh b with
              | ChOpen => NoRet
              | ChClosed =>
                  '(b', dst', n') ← read b dst;
                  if decide (0 < n') then Ret (b', dst', n', None)
                  else Ret (b', dst', n', Some io_EOF)
              end
          end
        else
          match opCh b with
          | ChClosed => Panic
          | ChOpen =>
              '(b', dst', r) ← read b dst;
              match sel with
              | RecvDone => Ret (b', dst', n, Some context_Canceled)
              | RecvData =>
                  if decide (0 < r) then Ret (b', dst', r, None)
                  else ReadWithContext_during sched b' dst' r
              end
          end
    end
  else Ret (b, dst, n, None).

(** [k] iterations during which the producer does nothing and the token
    does not fire. *)
Definition idle (k : nat) : list (list producer_call * select_case) :=
  replicate k ([], RecvData).

(** The buffer a new one becomes after [write("abc")]; the same after
    [eof]. *)
Definition abc_buffer : buffer :=
  Buffer [Element [] (Some 1); Element [Byte.x61; Byte.x62; Byte.x63] None]
    ChOpen ChOpen (Some 0) (Some 1) false.
Definition abc_closed_buffer : buffer :=
  Buffer [Element [] (Some 1); Element [Byte.x61; Byte.x62; Byte.x63] None]
    ChClosed ChClosed (Some 0) (Some 1) true.


(** The buffers a program can hold: created by [newBuffer] and changed
    only by calls that returned. *)
Inductive reachable : buffer → Prop :=
| reachable_new : reachable newBuffer
| reachable_write b data b' :
    reachable b → write b data = Ret b' → reachable b'
| reachable_eof b b' :
    reachable b → eof b = Ret b' → reachable b'
| reachable_read b ctx dst b' dst' n err :
    reachable b → ReadWithContext ctx b dst = Ret (b', dst', n, err) →
    reachable b'.

(** ** ssh/cancelable_bufio.go *)

(** time.Time, built by [time.Unix(sec, nsec)]. *)
Inductive Time : Type := Unix (sec nsec : Z).

(** A method call performed on the wrapped or probed object. *)
Inductive call : Type :=
| CallSetReadDeadline (t : Time)
| CallSetWriteDeadline (t : Time).

(** An [io.Reader] value with state [S].  [reader_SetReadDeadline] is the
    method [SetReadDeadline(t time.Time) error] of its dynamic type, when
    that type has one: the assertion [r.(readerWithDeadlineSetter)]
    succeeds exactly then.  A nil interface value behaves as an object
    without the method. *)
Record ioReader (S : Type) : Type := IoReader {
  reader_state : S;
  reader_SetReadDeadline : option (S → Time → S * option error)
}.
Arguments IoReader {S} _ _.
Arguments reader_state {S} _.
Arguments reader_SetReadDeadline {S} _.

(** An [io.Writer] value, likewise with [SetWriteDeadline]. *)
Record ioWriter (S : Type) : Type := IoWriter {
  writer_state : S;
  writer_SetWriteDeadline : option (S → Time → S * option error)
}.
Arguments IoWriter {S} _ _.
Arguments writer_state {S} _.
Arguments writer_SetWriteDeadline {S} _.

(** The part of [bufio.Reader] and [bufio.Writer] that is their own: the
    bytes held in the internal buffer.  The stream they read from or write
    to is the very object kept in [UnderlyingReader] / [UnderlyingWriter],
    so it is represented once, there. *)
Record bufio_Reader : Type := BufioReader { rd_pending : bytes }.
Record bufio_Writer : Type := BufioWriter { wr_pending : bytes }.

Definition bufio_NewReader : bufio_Reader := BufioReader [].
Definition bufio_NewWriter : bufio_Writer := BufioWriter [].

(** type bufReaderWithDeadline struct *)
Record bufReaderWithDeadline (S : Type) : Type := BufReaderWithDeadline {
  Reader : bufio_Reader;
  UnderlyingReader : ioReader S
}.
Arguments BufReaderWithDeadline {S} _ _.
Arguments Reader {S} _.
Arguments UnderlyingReader {S} _.

Definition newBufReaderWithDeadline {S} (r : ioReader S)
  : bufReaderWithDeadline S :=
  BufReaderWithDeadline bufio_NewReader r.

(** func (r *bufReaderWithDeadline) SetReadDeadline(t time.Time) error:
    the wrapper afterwards, the error, and the calls made on the
    underlying reader. *)
Definition SetReadDeadline {S} (r : bufReaderWithDeadline S) (t : Time)
  : bufReaderWithDeadline S * option error * list call :=
  match reader_SetReadDeadline (UnderlyingReader r) with
  | None => (r, Some unsupported, [])
  | Some set =>
      let '(s', err) := set (reader_state (UnderlyingReader r)) t in
      (BufReaderWithDeadline (Reader r) (IoReader s' (Some set)), err,
       [CallSetReadDeadline t])
  end.

(** type bufWriterWithDeadline struct *)
Record bufWriterWithDeadline (S : Type) : Type := BufWriterWithDeadline {
  Writer : bufio_Writer;
  UnderlyingWriter : ioWriter S
}.
Arguments BufWriterWithDeadline {S} _ _.
Arguments Writer {S} _.
Arguments UnderlyingWriter {S} _.

Definition newBufWriterWithDeadline {S} (w : ioWriter S)
  : bufWriterWithDeadline S :=
  BufWriterWithDeadline bufio_NewWriter w.

(** func (r *bufWriterWithDeadline) SetWriteDeadline(t time.Time) error *)
Definition SetWriteDeadline {S} (r : bufWriterWithDeadline S) (t : Time)
  : bufWriterWithDeadline S * option error * list call :=
  match writer_SetWriteDeadline (UnderlyingWriter r) with
  | None => (r, Some unsupported, [])
  | Some set =>
      let '(s', err) := set (writer_state (UnderlyingWriter r)) t in
      (BufWriterWithDeadline (Writer r) (IoWriter s' (Some set)), err,
       [CallSetWriteDeadline t])
  end.

(** func tryCancelReader(r io.Reader) error *)
Definition tryCancelReader {S} (r : ioReader S)
  : ioReader S * option error * list call :=
  match reader_SetReadDeadline r with
  | Some set =>
      let '(s', err) := set (reader_state r) (Unix 0 0) in
      (IoReader s' (Some set), err, [CallSetReadDeadline (Unix 0 0)])
  | None => (r, Some unsupported, [])
  end.

(** func tryCancelWriter(w io.Writer) error *)
Definition tryCancelWriter {S} (w : ioWriter S)
  : ioWriter S * option error * list call :=
  match writer_SetWriteDeadline w with
  | Some set =>
      let '(s', err) := set (writer_state w) (Unix 0 0) in
      (IoWriter s' (Some set), err, [CallSetWriteDeadline (Unix 0 0)])
  | None => (w, Some unsupported, [])
  end.

(** A [*bufReaderWithDeadline] is itself an [io.Reader] (through the
    embedded [*bufio.Reader]) whose dynamic type has [SetReadDeadline]. *)
Definition bufReaderWithDeadline_Reader {S} (r : bufReaderWithDeadline S)
  : ioReader (bufReaderWithDeadline S) :=
  IoReader r (Some (λ r t, let '(r', err, _) := SetReadDeadline r t in (r', err))).

Definition bufWriterWithDeadline_Writer {S} (w : bufWriterWithDeadline S)
  : ioWriter (bufWriterWithDeadline S) :=
  IoWriter w (Some (λ w t, let '(w', err, _) := SetWriteDeadline w t in (w', err))).

(** *** Objects to wrap *)

(** An in-memory byte stream without deadline methods, such as a
    [bytes.Buffer] or one end of an [io.Pipe]. *)
Definition memReader (data : bytes) : ioReader bytes := IoReader data None.
Definition memWriter (data : bytes) : ioWriter bytes := IoWriter data None.

(** A connection that stores the deadlines it is given, as a [net.Conn]
    does. *)
Record conn : Type := Conn {
  readDeadline : option Time;
  writeDeadline : option Time
}.

Definition conn_SetReadDeadline (c : conn) (t : Time) : conn * option error :=
  (Conn (Some t) (writeDeadline c), None).
Definition conn_SetWriteDeadline (c : conn) (t : Time) : conn * option error :=
  (Conn (readDeadline c) (Some t), None).

Definition connReader (c : conn) : ioReader conn :=
  IoReader c (Some conn_SetReadDeadline).
Definition connWriter (c : conn) : ioWriter conn :=
  IoWriter c (Some conn_SetWriteDeadline).

(** * Properties *)

(** ** The list stays well formed *)

Lemma holds_length b segs : holds b segs → length segs ≤ length (mem b).
Proof.
  intros H. pose proof (holds_segs _ _ H) as Hs.
  apply (f_equal length) in Hs. rewrite length_fmap, length_drop in Hs. lia.
Qed.

Lemma holds_newBuffer : holds newBuffer [[]].
Proof.
  split; simpl; try done.
  - lia.
  - intros [|i] e He; simplify_eq/=; done.
Qed.

Lemma holds_lookup_head b s segs :
  holds b (s :: segs) →
  ∃ e, mem b !! (length (mem b) - S (length segs)) = Some e ∧ buf e = s ∧
       buf <$> drop (S (length (mem b) - S (length segs))) (mem b) = segs.
Proof.
  intros H. pose proof (holds_length _ _ H) as Hl. simpl in Hl.
  pose proof (holds_segs _ _ H) as Hs. simpl in Hs.
  destruct (lookup_lt_is_Some_2 (mem b) (length (mem b) - S (length segs)))
    as [e He]; [lia|].
  exists e. split; [done|].
  rewrite (drop_S _ _ _ He) in Hs. simpl in Hs. by simplify_eq.
Qed.

Lemma holds_write b segs data :
  holds b segs → closed b = false →
  ∃ b', write b data = Ret b' ∧ holds b' (segs ++ [data]) ∧ closed b' = false.
Proof.
  intros H Hc. pose proof (holds_length _ _ H) as Hl.
  pose proof (holds_pos _ _ H) as Hp.
  unfold write. rewrite (holds_opCh _ _ H), Hc. simpl.
  rewrite (holds_tail _ _ H).
  destruct (lookup_lt_is_Some_2 (mem b) (length (mem b) - 1)) as [t Ht]; [lia|].
  unfold load. rewrite (lookup_app_l_Some _ _ _ _ Ht). simpl.
  unfold store. rewrite decide_True by (rewrite length_app; simpl; lia).
  simpl. eexists. split; [done|]. split; [|done].
  set (m' := <[length (mem b) - 1:=_]> _).
  assert (Hm' : length m' = S (length (mem b))).
  { unfold m'. rewrite length_insert, length_app. simpl. lia. }
  split; simpl; rewrite ?Hm', ?length_app; simpl.
  - rewrite (holds_head _ _ H). f_equal. lia.
  - f_equal. lia.
  - replace (S (length (mem b)) - (length segs + 1))
      with (length (mem b) - length segs) by lia.
    unfold m'. rewrite drop_insert_ge by lia. rewrite drop_app_le by lia.
    rewrite list_fmap_insert, fmap_app, (holds_segs _ _ H). simpl.
    apply list_insert_id. rewrite lookup_app_l by lia.
    rewrite <- (holds_segs _ _ H) at 2. rewrite list_lookup_fmap, lookup_drop.
    replace (length (mem b) - length segs + _) with (length (mem b) - 1) by lia.
    by rewrite Ht.
  - lia.
  - intros i e He. unfold m' in He.
    apply list_lookup_insert_Some in He as [(<- & <- & Hi)|[Hne He]].
    + simpl. rewrite decide_True by lia. f_equal. lia.
    + apply lookup_app_Some in He as [He|[Hi He]].
      * rewrite (holds_next _ _ H _ _ He).
        apply lookup_lt_Some in He.
        rewrite !decide_True by lia. done.
      * apply list_lookup_singleton_Some in He as [Hi' <-]. simpl.
        rewrite decide_False by lia. done.
  - rewrite (holds_opCh _ _ H). done.
  - apply (holds_finCh _ _ H).
Qed.

Lemma write_all_holds chunks : ∀ b segs,
  holds b segs → closed b = false →
  ∃ b', write_all b chunks = Ret b' ∧ holds b' (segs ++ chunks) ∧
        closed b' = false.
Proof.
  induction chunks as [|a chunks IH]; intros b segs H Hc.
  - exists b. by rewrite app_nil_r.
  - destruct (holds_write _ _ a H Hc) as (b1 & Hw & H1 & Hc1).
    destruct (IH _ _ H1 Hc1) as (b' & Hws & H' & Hc').
    exists b'. simpl. rewrite Hw. simpl.
    by rewrite <- (assoc_L (++)) in H'.
Qed.

Lemma holds_eof b segs :
  holds b segs →
  ∃ b', eof b = Ret b' ∧ holds b' segs ∧ closed b' = true ∧
        mem b' = mem b ∧ head b' = head b ∧ tail b' = tail b.
Proof.
  intros H. unfold eof. destruct (closed b) eqn:Hc.
  - exists b. by rewrite Hc.
  - rewrite (holds_finCh _ _ H), (holds_opCh _ _ H), Hc. simpl.
    eexists. split; [done|]. split; [|done].
    destruct H. by split.
Qed.

(** [b.head.buf = b.head.buf[r:]] keeps the list well formed. *)
Lemma holds_store_head b s ss e r :
  holds b (s :: ss) →
  mem b !! (length (mem b) - S (length ss)) = Some e →
  holds (set_mem b (<[length (mem b) - S (length ss) :=
                       Element (drop r (buf e)) (next e)]> (mem b)))
        (drop r s :: ss).
Proof.
  intros H He. pose proof (holds_length _ _ H) as Hl. simpl in Hl.
  destruct (holds_lookup_head _ _ _ H) as (e' & He' & Hbuf & Hrest).
  simplify_eq.
  split; simpl; rewrite ?length_insert.
  - apply (holds_head _ _ H).
  - apply (holds_tail _ _ H).
  - erewrite drop_S; last first.
    { rewrite list_lookup_insert_eq; [done|]. by eapply lookup_lt_Some. }
    simpl. f_equal. rewrite drop_insert_lt by lia. done.
  - lia.
  - intros i e'. intros [(<- & <- & Hi)|[Hne Hi]]%list_lookup_insert_Some.
    + simpl. by apply (holds_next _ _ H).
    + by apply (holds_next _ _ H).
  - apply (holds_opCh _ _ H).
  - apply (holds_finCh _ _ H).
Qed.

(** [b.head = b.head.next] keeps the list well formed when the first
    element is not the last one. *)
Lemma holds_advance b s ss :
  holds b (s :: ss) → ss ≠ [] →
  holds (set_head b (Some (S (length (mem b) - S (length ss))))) ss.
Proof.
  intros H Hss. pose proof (holds_length _ _ H) as Hl. simpl in Hl.
  destruct (holds_lookup_head _ _ _ H) as (e' & He' & Hbuf & Hrest).
  assert (0 < length ss) by (destruct ss; simpl; [done|lia]).
  split; simpl.
  - f_equal. lia.
  - apply (holds_tail _ _ H).
  - rewrite <- Hrest at 2. do 2 f_equal. lia.
  - done.
  - apply (holds_next _ _ H).
  - apply (holds_opCh _ _ H).
  - apply (holds_finCh _ _ H).
Qed.

Lemma read_loop_holds fuel : ∀ b segs filled dst n,
  holds b segs → 2 * length segs ≤ fuel + head_empty segs →
  ∃ b' segs',
    read_loop fuel b filled dst n =
      Ret (b',
           filled ++ take (length dst `min` length (concat segs)) (concat segs)
                  ++ drop (length dst `min` length (concat segs)) dst,
           n + length dst `min` length (concat segs)) ∧
    holds b' segs' ∧
    concat segs' = drop (length dst `min` length (concat segs)) (concat segs) ∧
    closed b' = closed b.
Proof.
  induction fuel as [|fuel IH]; intros b segs filled dst n H Hfuel.
  { pose proof (holds_pos _ _ H). destruct segs as [|[|??]?]; simpl in *; lia. }
  simpl. destruct (decide (0 < length dst)) as [Hdst|Hdst].
  2: { assert (dst = []) as -> by (destruct dst; simpl in *; [done|lia]).
       exists b, segs. simpl. rewrite Nat.add_0_r. done. }
  destruct segs as [|s ss];
    [pose proof (holds_pos _ _ H); simpl in *; lia|].
  destruct (holds_lookup_head _ _ _ H) as (e & He & Hbuf & Hrest).
  pose proof (holds_length _ _ H) as Hl. simpl in Hl.
  rewrite (holds_head _ _ H). simpl length. simpl load. rewrite He. simpl.
  destruct (decide (0 < length (buf e))) as [Hs|Hs].
  - (* copy from the first element *)
    unfold store. rewrite decide_True by lia. simpl.
    pose proof (holds_store_head _ _ _ _ (length dst `min` length (buf e)) H He)
      as H'.
    rewrite Hbuf in *.
    set (r := length dst `min` length s) in *.
    assert (Hr : r ≤ length s) by lia.
    assert (Hr' : r ≤ length dst) by lia.
    assert (Hne : head_empty (s :: ss) = 0)
      by (destruct s; simpl in *; [lia|done]).
    rewrite Hne in Hfuel. simpl length in Hfuel.
    rewrite take_app_length' by (rewrite length_take; lia).
    rewrite drop_app_length' by (rewrite length_take; lia).
    destruct (decide (length s ≤ length dst)) as [Hle|Hgt].
    + (* the element is used up *)
      assert (r = length s) as Hrs by lia.
      destruct (IH _ _ (filled ++ take r s) (drop r dst) (n + r) H')
        as (b' & segs' & Hrun & Hh' & Hc' & Hcl').
      { rewrite Hrs, drop_all. simpl in *. lia. }
      exists b', segs'. rewrite Hrun. clear Hrun IH.
      rewrite Hrs, drop_all, take_ge in * by lia. simpl in Hc' |- *.
      rewrite length_drop in *. rewrite length_app.
      replace (length dst `min` (length s + length (concat ss)))
        with (length s + (length dst - length s) `min` length (concat ss))
        by lia.
      split_and!; [|done| |done].
      * f_equal. f_equal; [|lia].
        rewrite <- !(assoc_L (++)). f_equal.
        rewrite take_app_add, drop_drop, <- ?(assoc_L (++)). done.
      * rewrite Hc'. rewrite drop_app_add. done.
    + (* the destination is full *)
      assert (r = length dst) as Hrd by lia.
      clearbody r. subst r.
      destruct fuel as [|fuel]; [simpl in *; lia|].
      rewrite drop_all. simpl.
      eexists _, _. split_and!; [|exact H'|..].
      * rewrite length_app, Nat.min_l by lia. rewrite drop_all.
        rewrite take_app_le by lia. rewrite !app_nil_r. done.
      * simpl. rewrite length_app, Nat.min_l by lia.
        rewrite drop_app_le by lia. done.
      * done.
  - (* the first element is empty *)
    assert (s = []) as -> by (rewrite Hbuf in Hs; destruct s; simpl in *; [done|lia]).
    rewrite (holds_tail _ _ H). simpl concat.
    destruct (decide (ss = [])) as [->|Hss].
    + rewrite decide_False; last first.
      { intros [_ Hne]. apply Hne. simpl. done. }
      exists b, [[]]. simpl. rewrite Nat.min_0_r, Nat.add_0_r. simpl.
      rewrite drop_0. done.
    + assert (0 < length ss) by (destruct ss; simpl; [done|lia]).
      rewrite decide_True; last first.
      { split; [by rewrite Hbuf|]. intros [=]. lia. }
      rewrite (holds_next _ _ H _ _ He), decide_True by lia.
      destruct (IH _ _ filled dst n (holds_advance _ _ _ H Hss))
        as (b' & segs' & Hrun & Hh' & Hc' & Hcl').
      { simpl in Hfuel. destruct ss as [|[|??]?]; simpl in *; lia. }
      exists b', segs'. by rewrite Hrun.
Qed.

(** [read] returns on a well-formed list: it moves the first
    [min (len dst) (len queued)] queued bytes to the front of [dst]. *)
Lemma read_returns b segs dst :
  holds b segs →
  ∃ b' segs',
    read b dst =
      Ret (b',
           take (length dst `min` length (concat segs)) (concat segs)
             ++ drop (length dst `min` length (concat segs)) dst,
           length dst `min` length (concat segs)) ∧
    holds b' segs' ∧
    concat segs' = drop (length dst `min` length (concat segs)) (concat segs) ∧
    closed b' = closed b.
Proof.
  intros H. pose proof (holds_length _ _ H).
  destruct (read_loop_holds (2 * length (mem b) + 1) b segs [] dst 0 H)
    as (b' & segs' & Hrun & ?); [lia|].
  exists b', segs'. split; [|done]. apply Hrun.
Qed.

Lemma walk_holds fuel : ∀ b segs,
  holds b segs → length segs ≤ fuel →
  walk fuel (mem b) (head b) (tail b) = concat segs.
Proof.
  induction fuel as [|fuel IH]; intros b segs H Hfuel.
  { pose proof (holds_pos _ _ H). lia. }
  destruct segs as [|s ss]; [pose proof (holds_pos _ _ H); simpl in *; lia|].
  destruct (holds_lookup_head _ _ _ H) as (e & He & Hbuf & Hrest).
  pose proof (holds_length _ _ H) as Hl. simpl in Hl, Hfuel.
  simpl. rewrite (holds_head _ _ H), (holds_tail _ _ H). simpl.
  rewrite He, Hbuf. f_equal.
  destruct (decide (ss = [])) as [->|Hss].
  - simpl. by rewrite decide_True.
  - assert (0 < length ss) by (destruct ss; simpl; [done|lia]).
    rewrite decide_False by (intros [=]; lia).
    rewrite (holds_next _ _ H _ _ He), decide_True by lia.
    pose proof (IH _ _ (holds_advance _ _ _ H Hss)) as IH'. simpl in IH'.
    rewrite (holds_tail _ _ H) in IH'. apply IH'. lia.
Qed.

Lemma queued_holds b segs : holds b segs → queued b = concat segs.
Proof.
  intros H. apply walk_holds; [done|]. by apply holds_length.
Qed.

(** ** [eof] *)

Lemma eof_closed b b' : eof b = Ret b' → closed b' = true.
Proof.
  unfold eof. destruct (closed b) eqn:Hc; [by intros [= <-]|].
  destruct (opCh b), (finCh b); simpl; intros [= <-]; done.
Qed.

Lemma eof_of_closed b : closed b = true → eof b = Ret b.
Proof. intros Hc. unfold eof. by rewrite Hc. Qed.

Lemma eof_times_closed k b : closed b = true → eof_times k b = Ret b.
Proof.
  intros Hc. induction k as [|k IH]; [done|].
  simpl. by rewrite eof_of_closed.
Qed.

(** ** One call of [ReadWithContext], case by case *)

Lemma nonempty_length (dst : bytes) : dst ≠ [] → 0 < length dst.
Proof. destruct dst; simpl; [done|lia]. Qed.

Lemma never_fires_cons ctx :
  never_fires ctx → ∃ ctx', ctx = RecvData :: ctx'.
Proof.
  intros [Hne Hall]. destruct ctx as [|sel ctx]; [done|].
  apply Forall_cons in Hall as [-> _]. eauto.
Qed.

Lemma ReadWithContext_loop_nil ctx b n :
  ReadWithContext_loop ctx b [] n = Ret (b, [], n, None).
Proof. by destruct ctx. Qed.

Lemma ReadWithContext_loop_closed_done ctx b dst n :
  closed b = true → 0 < length dst →
  ReadWithContext_loop (RecvDone :: ctx) b dst n =
    Ret (b, dst, n, Some context_Canceled).
Proof. intros Hc Hd. simpl. rewrite decide_True by done. by rewrite Hc. Qed.

Lemma ReadWithContext_loop_closed_data ctx b segs dst n :
  holds b segs → closed b = true → 0 < length dst →
  ∃ b' segs',
    ReadWithContext_loop (RecvData :: ctx) b dst n =
      Ret (b',
           take (length dst `min` length (concat segs)) (concat segs)
             ++ drop (length dst `min` length (concat segs)) dst,
           length dst `min` length (concat segs),
           if decide (0 < length dst `min` length (concat segs))
           then None else Some io_EOF) ∧
    holds b' segs' ∧
    concat segs' = drop (length dst `min` length (concat segs)) (concat segs) ∧
    closed b' = true.
Proof.
  intros H Hc Hd. simpl. rewrite decide_True by done.
  rewrite Hc, (holds_finCh _ _ H), (holds_opCh _ _ H), Hc.
  destruct (read_returns b segs dst H) as (b' & segs' & -> & H' & Hq & Hc').
  exists b', segs'. simpl. split; [by case_decide|]. by rewrite Hc' , Hc.
Qed.

Lemma ReadWithContext_loop_open_done b segs dst :
  holds b segs → closed b = false → 0 < length dst →
  ∃ b' segs',
    (∀ ctx n,
       ReadWithContext_loop (RecvDone :: ctx) b dst n =
         Ret (b',
              take (length dst `min` length (concat segs)) (concat segs)
                ++ drop (length dst `min` length (concat segs)) dst,
              n, Some context_Canceled)) ∧
    holds b' segs' ∧
    concat segs' = drop (length dst `min` length (concat segs)) (concat segs) ∧
    closed b' = false.
Proof.
  intros H Hc Hd.
  destruct (read_returns b segs dst H) as (b' & segs' & Hrd & H' & Hq & Hc').
  exists b', segs'. rewrite Hc', Hc. split; [|done].
  intros ctx n. simpl. rewrite decide_True by done.
  by rewrite Hc, (holds_opCh _ _ H), Hc, Hrd.
Qed.

Lemma ReadWithContext_loop_open_data b segs dst :
  holds b segs → closed b = false → 0 < length dst →
  ∃ b' segs',
    (∀ ctx n,
       ReadWithContext_loop (RecvData :: ctx) b dst n =
         if decide (0 < length dst `min` length (concat segs))
         then Ret (b',
                   take (length dst `min` length (concat segs)) (concat segs)
                     ++ drop (length dst `min` length (concat segs)) dst,
                   length dst `min` length (concat segs), None)
         else ReadWithContext_loop ctx b' dst 0) ∧
    holds b' segs' ∧
    concat segs' = drop (length dst `min` length (concat segs)) (concat segs) ∧
    closed b' = false.
Proof.
  intros H Hc Hd.
  destruct (read_returns b segs dst H) as (b' & segs' & Hrd & H' & Hq & Hc').
  exists b', segs'. rewrite Hc', Hc. split; [|done].
  intros ctx n. simpl. rewrite decide_True by done.
  rewrite Hc, (holds_opCh _ _ H), Hc, Hrd. simpl.
  case_decide as Hk; [done|].
  replace (length dst `min` length (concat segs)) with 0 by lia.
  by rewrite drop_0.
Qed.

(** Every call that returns leaves the list well formed, with a suffix of
    the queued bytes, and does not touch [closed]. *)
Lemma ReadWithContext_loop_holds ctx : ∀ b segs dst n0 b' dst' n err,
  holds b segs →
  ReadWithContext_loop ctx b dst n0 = Ret (b', dst', n, err) →
  ∃ segs' k, holds b' segs' ∧ concat segs' = drop k (concat segs) ∧
             closed b' = closed b.
Proof.
  induction ctx as [|sel ctx IH]; intros b segs dst n0 b' dst' n err H Hrun.
  { simpl in Hrun. case_decide; simplify_eq.
    exists segs, 0. by rewrite drop_0. }
  destruct (decide (0 < length dst)) as [Hd|Hd].
  2: { simpl in Hrun. rewrite decide_False in Hrun by done. simplify_eq.
       exists segs, 0. by rewrite drop_0. }
  destruct (closed b) eqn:Hc, sel.
  - destruct (ReadWithContext_loop_closed_data ctx b segs dst n0 H Hc Hd)
      as (b1 & segs1 & Hrun1 & H1 & Hq1 & Hc1).
    rewrite Hrun1 in Hrun. simplify_eq. eauto.
  - rewrite ReadWithContext_loop_closed_done in Hrun by done. simplify_eq.
    exists segs, 0. by rewrite drop_0.
  - destruct (ReadWithContext_loop_open_data b segs dst H Hc Hd)
      as (b1 & segs1 & Hrun1 & H1 & Hq1 & Hc1).
    rewrite Hrun1 in Hrun. case_decide.
    + simplify_eq. eauto.
    + destruct (IH _ _ _ _ _ _ _ _ H1 Hrun) as (segs' & k & H' & Hq' & Hc').
      exists segs', (length dst `min` length (concat segs) + k).
      split_and!; [done| |congruence].
      by rewrite Hq', Hq1, drop_drop.
  - destruct (ReadWithContext_loop_open_done b segs dst H Hc Hd)
      as (b1 & segs1 & Hrun1 & H1 & Hq1 & Hc1).
    rewrite Hrun1 in Hrun. simplify_eq. eauto.
Qed.

Lemma reachable_holds b : reachable b → ∃ segs, holds b segs.
Proof.
  induction 1 as [|b data b' _ [segs H] Hw|b b' _ [segs H] He
                  |b ctx dst b' dst' n err _ [segs H] Hr].
  - exists [[]]. apply holds_newBuffer.
  - destruct (closed b) eqn:Hc.
    + unfold write in Hw. by rewrite (holds_opCh _ _ H), Hc in Hw.
    + destruct (holds_write _ _ data H Hc) as (b1 & Hw1 & H1 & _).
      rewrite Hw in Hw1. simplify_eq. eauto.
  - destruct (holds_eof _ _ H) as (b1 & He1 & H1 & _).
    rewrite He in He1. simplify_eq. eauto.
  - destruct (ReadWithContext_loop_holds _ _ _ _ _ _ _ _ _ H Hr)
      as (segs' & ? & ? & _). eauto.
Qed.

(** A call that ends with context.Canceled returns the count it started
    the loop with. *)
Lemma ReadWithContext_loop_canceled ctx : ∀ b dst n0 b' dst' n,
  ReadWithContext_loop ctx b dst n0 = Ret (b', dst', n, Some context_Canceled) →
  n = n0 ∨ n = 0.
Proof.
  induction ctx as [|sel ctx IH]; intros b dst n0 b' dst' n Hrun; simpl in Hrun.
  { case_decide; simplify_eq. }
  case_decide; [|simplify_eq].
  destruct (closed b).
  - destruct sel; [|simplify_eq; by left].
    destruct (finCh b); [done|].
    destruct (read b dst) as [[[b1 d1] n1]| |]; simpl in Hrun; [|done..].
    case_decide; simplify_eq.
  - destruct (opCh b); [|done].
    destruct (read b dst) as [[[b1 d1] n1]| |]; simpl in Hrun; [|done..].
    destruct sel; [|simplify_eq; by left].
    case_decide; [simplify_eq|].
    apply IH in Hrun as [->| ->]; right; [lia|done].
Qed.


(** With nothing queued a call obtains no byte, whatever the selects do. *)
Lemma ReadWithContext_loop_drained ctx : ∀ b segs dst n0 b' dst' n err,
  holds b segs → concat segs = [] →
  ReadWithContext_loop ctx b dst n0 = Ret (b', dst', n, err) →
  n = n0 ∨ n = 0.
Proof.
  induction ctx as [|sel ctx IH]; intros b segs dst n0 b' dst' n err H Hq Hrun.
  { simpl in Hrun. case_decide; simplify_eq. by left. }
  destruct (decide (0 < length dst)) as [Hd|Hd].
  2: { simpl in Hrun. rewrite decide_False in Hrun by done. simplify_eq.
       by left. }
  destruct (closed b) eqn:Hc, sel.
  - destruct (ReadWithContext_loop_closed_data ctx b segs dst n0 H Hc Hd)
      as (b1 & segs1 & Hrun1 & _).
    rewrite Hrun1, Hq in Hrun. simpl in Hrun. simplify_eq. right. lia.
  - rewrite ReadWithContext_loop_closed_done in Hrun by done. simplify_eq.
    by left.
  - destruct (ReadWithContext_loop_open_data b segs dst H Hc Hd)
      as (b1 & segs1 & Hrun1 & H1 & Hq1 & _).
    rewrite Hrun1, Hq in Hrun. simpl in Hrun.
    rewrite decide_False in Hrun by lia.
    rewrite Hq, drop_nil in Hq1.
    right. by destruct (IH _ _ _ _ _ _ _ _ H1 Hq1 Hrun).
  - destruct (ReadWithContext_loop_open_done b segs dst H Hc Hd)
      as (b1 & segs1 & Hrun1 & _).
    rewrite Hrun1 in Hrun. simplify_eq. by left.
Qed.

(** The consumer on a closed buffer, with tokens that never fire. *)
Lemma read_all_closed calls : ∀ b segs,
  holds b segs → closed b = true →
  Forall (λ c, never_fires c.1) calls →
  ∃ b' segs' rs,
    read_all b calls = Ret (b', rs) ∧
    holds b' segs' ∧ closed b' = true ∧
    length rs = length calls ∧
    concat (received <$> rs) = take (requested calls) (concat segs) ∧
    concat segs' = drop (requested calls) (concat segs) ∧
    Forall (λ r, res_err r = None ∨ (res_err r = Some io_EOF ∧ res_n r = 0))
      rs ∧
    (requested calls < length (concat segs) →
     Forall (λ r, res_err r = None) rs).
Proof.
  induction calls as [|[ctx dst] calls IH]; intros b segs H Hc Hall.
  { exists b, segs, []. simpl. rewrite drop_0. split_and!; done. }
  apply Forall_cons in Hall as [Hnf Hall]. simpl in Hnf.
  apply never_fires_cons in Hnf as [ctx' ->].
  unfold requested. simpl. fold (requested calls).
  destruct (decide (0 < length dst)) as [Hd|Hd].
  - destruct (ReadWithContext_loop_closed_data ctx' b segs dst 0 H Hc Hd)
      as (b1 & segs1 & Hrun & H1 & Hq1 & Hc1).
    destruct (IH _ _ H1 Hc1 Hall)
      as (b' & segs' & rs & Hrs & H' & Hc' & Hlen & Hrecv & Hq' & Herr & Hno).
    unfold ReadWithContext. rewrite Hrun. simpl. rewrite Hrs. simpl.
    eexists b', segs', _. split; [done|].
    rewrite fmap_cons. cbn [concat length]. unfold received at 1.
    cbn [res_n res_dst res_err].
    rewrite take_app_length' by (rewrite length_take; lia).
    rewrite Hrecv, Hq', Hq1, drop_drop.
    set (c := concat segs) in *.
    split_and!; [done|done|by rewrite Hlen|..].
    + destruct (decide (length dst ≤ length c)).
      * rewrite Nat.min_l by lia. apply take_take_drop.
      * rewrite Nat.min_r by lia.
        rewrite (drop_ge c (length c)), take_nil, app_nil_r by lia.
        by rewrite !take_ge by lia.
    + destruct (decide (length dst ≤ length c)).
      * by rewrite Nat.min_l by lia.
      * by rewrite !drop_ge by lia.
    + constructor; [|done]. cbn [res_n res_dst res_err].
      case_decide; [by left|right]. split; [done|lia].
    + intros Hlt. constructor.
      * cbn [res_n res_dst res_err]. rewrite decide_True by lia. done.
      * apply Hno. rewrite Hq1, length_drop. lia.
  - assert (dst = []) as -> by (destruct dst; simpl in *; [done|lia]).
    destruct (IH _ _ H Hc Hall)
      as (b' & segs' & rs & Hrs & H' & Hc' & Hlen & Hrecv & Hq' & Herr & Hno).
    unfold ReadWithContext. rewrite ReadWithContext_loop_nil. simpl.
    rewrite Hrs. simpl.
    eexists b', segs', _. split; [done|].
    rewrite fmap_cons. cbn [concat length]. unfold received at 1.
    cbn [res_n res_dst res_err take app].
    split_and!; [done|done|by rewrite Hlen|done|done|..].
    + constructor; [by left|done].
    + intros Hlt. constructor; [done|by apply Hno].
Qed.

(** ** More on one call of [ReadWithContext] *)

(** What a returning call can report. *)
Lemma ReadWithContext_loop_result ctx : ∀ b segs dst n0 b' dst' n err,
  holds b segs → 0 < length dst →
  ReadWithContext_loop ctx b dst n0 = Ret (b', dst', n, err) →
  length dst' = length dst ∧
  ((err = None ∧ 0 < n ∧ n ≤ length dst) ∨
   (err = Some io_EOF ∧ n = 0 ∧ closed b = true ∧ concat segs = [] ∧
    dst' = dst) ∨
   (err = Some context_Canceled ∧ (n = n0 ∨ n = 0))).
Proof.
  induction ctx as [|sel ctx IH]; intros b segs dst n0 b' dst' n err H Hd Hrun.
  { simpl in Hrun. by rewrite decide_True in Hrun. }
  assert (Hlen : length (take (length dst `min` length (concat segs))
                           (concat segs)
                         ++ drop (length dst `min` length (concat segs)) dst)
                 = length dst).
  { rewrite length_app, length_take, length_drop. lia. }
  destruct (closed b) eqn:Hc, sel.
  - destruct (ReadWithContext_loop_closed_data ctx b segs dst n0 H Hc Hd)
      as (b1 & segs1 & Hrun1 & _).
    rewrite Hrun1 in Hrun. simplify_eq. split; [done|].
    case_decide as Hk; [left; split_and!; [done|done|lia]|].
    right; left.
    assert (Hq : concat segs = [])
      by (destruct (concat segs); simpl in *; [done|lia]).
    rewrite Hq. simpl. rewrite Nat.min_0_r, drop_0. done.
  - rewrite ReadWithContext_loop_closed_done in Hrun by done. simplify_eq.
    split; [done|]. right; right. split; [done|by left].
  - destruct (ReadWithContext_loop_open_data b segs dst H Hc Hd)
      as (b1 & segs1 & Hrun1 & H1 & Hq1 & Hc1).
    rewrite Hrun1 in Hrun. case_decide as Hk.
    + simplify_eq. split; [done|]. left. split_and!; [done|done|lia].
    + destruct (IH _ _ _ _ _ _ _ _ H1 Hd Hrun)
        as (Hl & [?|[(_ & _ & Hc' & _)|(? & Hn)]]).
      * split; [done|]. by left.
      * congruence.
      * split; [done|]. right; right. split; [done|]. right.
        by destruct Hn.
  - destruct (ReadWithContext_loop_open_done b segs dst H Hc Hd)
      as (b1 & segs1 & Hrun1 & _).
    rewrite Hrun1 in Hrun. simplify_eq. split; [done|].
    right; right. split; [done|by left].
Qed.

(** What a call reports when none of its selects takes [ctx.Done()]. *)
Lemma ReadWithContext_loop_uncanceled ctx : ∀ b segs dst n0 b' dst' n err,
  holds b segs → Forall (λ sel, sel = RecvData) ctx → 0 < length dst →
  ReadWithContext_loop ctx b dst n0 = Ret (b', dst', n, err) →
  n = length dst `min` length (concat segs) ∧
  dst' = take n (concat segs) ++ drop n dst ∧
  err = (if decide (0 < n) then None else Some io_EOF) ∧
  ∃ segs', holds b' segs' ∧ concat segs' = drop n (concat segs) ∧
           closed b' = closed b.
Proof.
  induction ctx as [|sel ctx IH];
    intros b segs dst n0 b' dst' n err H Hall Hd Hrun.
  { simpl in Hrun. by rewrite decide_True in Hrun. }
  apply Forall_cons in Hall as [-> Hall].
  destruct (closed b) eqn:Hc.
  - destruct (ReadWithContext_loop_closed_data ctx b segs dst n0 H Hc Hd)
      as (b1 & segs1 & Hrun1 & H1 & Hq1 & Hc1).
    rewrite Hrun1 in Hrun. simplify_eq. split_and!; [done..|].
    exists segs1. by rewrite Hc1.
  - destruct (ReadWithContext_loop_open_data b segs dst H Hc Hd)
      as (b1 & segs1 & Hrun1 & H1 & Hq1 & Hc1).
    rewrite Hrun1 in Hrun. case_decide as Hk.
    + simplify_eq. rewrite decide_True by done. split_and!; [done..|].
      exists segs1. by rewrite Hc1.
    + destruct (ReadWithContext_loop_result _ _ _ _ _ _ _ _ _ H1 Hd Hrun)
        as (_ & [(_ & Hn & _)|[(_ & _ & Hc' & _)|(-> & _)]]).
      * assert (Hq : concat segs1 = concat segs).
        { rewrite Hq1.
          replace (length dst `min` length (concat segs)) with 0 by lia.
          by rewrite drop_0. }
        destruct (IH _ _ _ _ _ _ _ _ H1 Hall Hd Hrun) as (Hn' & _).
        rewrite Hq in Hn'. lia.
      * congruence.
      * destruct (IH _ _ _ _ _ _ _ _ H1 Hall Hd Hrun) as (_ & _ & He & _).
        by case_decide.
Qed.

(** With nothing queued and the buffer open, a call whose token does not
    fire keeps looping. *)
Lemma ReadWithContext_loop_blocks ctx : ∀ b segs dst n0,
  holds b segs → closed b = false → concat segs = [] → 0 < length dst →
  Forall (λ sel, sel = RecvData) ctx →
  ReadWithContext_loop ctx b dst n0 = NoRet.
Proof.
  induction ctx as [|sel ctx IH]; intros b segs dst n0 H Hc Hq Hd Hall.
  { simpl. by rewrite decide_True. }
  apply Forall_cons in Hall as [-> Hall].
  destruct (ReadWithContext_loop_open_data b segs dst H Hc Hd)
    as (b1 & segs1 & Hrun1 & H1 & Hq1 & Hc1).
  rewrite Hrun1, Hq. simpl. rewrite decide_False by lia.
  apply (IH _ segs1); [done..| |done|done].
  by rewrite Hq1, Hq, drop_nil.
Qed.

(** No call on a well-formed list panics. *)
Lemma ReadWithContext_loop_no_panic ctx : ∀ b segs dst n0,
  holds b segs → ReadWithContext_loop ctx b dst n0 ≠ Panic.
Proof.
  induction ctx as [|sel ctx IH]; intros b segs dst n0 H.
  { simpl. by case_decide. }
  destruct (decide (0 < length dst)) as [Hd|Hd].
  2: { simpl. by rewrite decide_False. }
  destruct (closed b) eqn:Hc, sel.
  - destruct (ReadWithContext_loop_closed_data ctx b segs dst n0 H Hc Hd)
      as (b1 & segs1 & -> & _). done.
  - by rewrite ReadWithContext_loop_closed_done.
  - destruct (ReadWithContext_loop_open_data b segs dst H Hc Hd)
      as (b1 & segs1 & -> & H1 & _). case_decide; [done|]. by eapply IH.
  - destruct (ReadWithContext_loop_open_done b segs dst H Hc Hd)
      as (b1 & segs1 & -> & _). done.
Qed.

(** A canceled call has taken nothing when the buffer is closed or has
    nothing queued. *)
Lemma ReadWithContext_loop_canceled_keeps ctx : ∀ b segs dst n0 b' dst' n,
  holds b segs → closed b = true ∨ concat segs = [] →
  ReadWithContext_loop ctx b dst n0 = Ret (b', dst', n, Some context_Canceled) →
  dst' = dst ∧ ∃ segs', holds b' segs' ∧ concat segs' = concat segs.
Proof.
  induction ctx as [|sel ctx IH]; intros b segs dst n0 b' dst' n H Hor Hrun.
  { simpl in Hrun. case_decide; simplify_eq. }
  destruct (decide (0 < length dst)) as [Hd|Hd].
  2: { simpl in Hrun. rewrite decide_False in Hrun by done. simplify_eq. }
  destruct (closed b) eqn:Hc, sel.
  - destruct (ReadWithContext_loop_closed_data ctx b segs dst n0 H Hc Hd)
      as (b1 & segs1 & Hrun1 & _).
    rewrite Hrun1 in Hrun. case_decide; simplify_eq.
  - rewrite ReadWithContext_loop_closed_done in Hrun by done. simplify_eq.
    eauto.
  - destruct Hor as [?|Hq]; [done|].
    destruct (ReadWithContext_loop_open_data b segs dst H Hc Hd)
      as (b1 & segs1 & Hrun1 & H1 & Hq1 & Hc1).
    rewrite Hrun1, Hq in Hrun. simpl in Hrun.
    rewrite decide_False in Hrun by lia.
    rewrite Hq, drop_nil in Hq1.
    destruct (IH _ _ _ _ _ _ _ H1 (or_intror Hq1) Hrun)
      as (-> & segs' & H' & Hq').
    split; [done|]. exists segs'. by rewrite Hq', Hq1, Hq.
  - destruct Hor as [?|Hq]; [done|].
    destruct (ReadWithContext_loop_open_done b segs dst H Hc Hd)
      as (b1 & segs1 & Hrun1 & H1 & Hq1 & _).
    rewrite Hrun1, Hq in Hrun. simpl in Hrun.
    rewrite Nat.min_0_r, drop_0 in Hrun. simpl in Hrun. simplify_eq.
    split; [done|]. exists segs1. by rewrite Hq1, Hq, drop_nil.
Qed.


(** ** Interleaved writes and reads *)

(** A call none of whose selects takes [ctx.Done()] delivers the first
    queued bytes and leaves the others queued. *)
Lemma ReadWithContext_loop_data ctx : ∀ b segs dst n0 b' dst' n err,
  holds b segs → Forall (λ sel, sel = RecvData) ctx →
  ReadWithContext_loop ctx b dst n0 = Ret (b', dst', n, err) →
  ∃ segs', holds b' segs' ∧ take n dst' ++ concat segs' = concat segs.
Proof.
  induction ctx as [|sel ctx IH];
    intros b segs dst n0 b' dst' n err H Hall Hrun.
  { simpl in Hrun. case_decide; simplify_eq. exists segs.
    assert (dst' = []) as -> by (destruct dst'; simpl in *; [done|lia]).
    by rewrite take_nil. }
  destruct (decide (0 < length dst)) as [Hd|Hd].
  2: { simpl in Hrun. rewrite decide_False in Hrun by done. simplify_eq.
       exists segs.
       assert (dst' = []) as -> by (destruct dst'; simpl in *; [done|lia]).
       by rewrite take_nil. }
  apply Forall_cons in Hall as [-> Hall].
  destruct (closed b) eqn:Hc.
  - destruct (ReadWithContext_loop_closed_data ctx b segs dst n0 H Hc Hd)
      as (b1 & segs1 & Hrun1 & H1 & Hq1 & _).
    rewrite Hrun1 in Hrun. simplify_eq. exists segs1. split; [done|].
    rewrite take_app_length' by (rewrite length_take; lia).
    by rewrite Hq1, take_drop.
  - destruct (ReadWithContext_loop_open_data b segs dst H Hc Hd)
      as (b1 & segs1 & Hrun1 & H1 & Hq1 & _).
    rewrite Hrun1 in Hrun. case_decide as Hk.
    + simplify_eq. exists segs1. split; [done|].
      rewrite take_app_length' by (rewrite length_take; lia).
      by rewrite Hq1, take_drop.
    + destruct (IH _ _ _ _ _ _ _ _ H1 Hall Hrun) as (segs' & H' & Hq').
      exists segs'. split; [done|]. rewrite Hq', Hq1.
      replace (length dst `min` length (concat segs)) with 0 by lia.
      by rewrite drop_0.
Qed.

(** Conservation: over a sequence of writes, eofs and reads that are not
    canceled, the bytes delivered followed by the bytes still queued are
    the bytes queued at the start followed by the bytes appended. *)
Lemma run_conservation ops : ∀ b segs b' rs,
  holds b segs → uncanceled ops → run b ops = Ret (b', rs) →
  concat (received <$> rs) ++ queued b' = concat segs ++ written ops.
Proof.
  induction ops as [|[data| |ctx dst] ops IH];
    intros b segs b' rs H Hall Hrun; simpl in Hrun.
  - simplify_eq. simpl. by rewrite (queued_holds _ _ H), app_nil_r.
  - apply Forall_cons in Hall as [_ Hall].
    destruct (write b data) as [b1| |] eqn:Hw; [|done..]. simpl in Hrun.
    destruct (closed b) eqn:Hc.
    { unfold write in Hw. by rewrite (holds_opCh _ _ H), Hc in Hw. }
    destruct (holds_write _ _ data H Hc) as (b2 & Hw2 & H2 & _).
    rewrite Hw in Hw2. simplify_eq.
    rewrite (IH _ _ _ _ H2 Hall Hrun). simpl.
    by rewrite concat_app, <- (assoc_L (++)); simpl; rewrite app_nil_r.
  - apply Forall_cons in Hall as [_ Hall].
    destruct (eof b) as [b1| |] eqn:He; [|done..]. simpl in Hrun.
    destruct (holds_eof _ _ H) as (b2 & He2 & H2 & _).
    rewrite He in He2. simplify_eq. by apply (IH _ _ _ _ H2 Hall Hrun).
  - apply Forall_cons in Hall as [Hctx Hall].
    destruct (ReadWithContext ctx b dst) as [[[[b1 dst1] n1] err1]| |] eqn:Hr;
      [|done..]. simpl in Hrun.
    destruct (run b1 ops) as [[b2 rs2]| |] eqn:Hrun2; [|done..].
    simpl in Hrun. simplify_eq.
    destruct (ReadWithContext_loop_data _ _ _ _ _ _ _ _ _ H Hctx Hr)
      as (segs1 & H1 & Hq1).
    rewrite fmap_cons. cbn [concat]. unfold received at 1.
    cbn [res_n res_dst]. rewrite <- (assoc_L (++)).
    rewrite (IH _ _ _ _ H1 Hall Hrun2).
    by rewrite (assoc_L (++)), Hq1.
Qed.

(** ** What a canceled call does to the buffer *)

(** On a closed buffer the select comes before [read]: nothing is taken. *)
Lemma canceled_read_closed b ctx dst :
  closed b = true → dst ≠ [] →
  ReadWithContext (RecvDone :: ctx) b dst =
    Ret (b, dst, 0, Some context_Canceled).
Proof.
  intros Hc Hd%nonempty_length. by apply ReadWithContext_loop_closed_done.
Qed.

(** On an open buffer [read] has been handed to the worker before the
    select: the queued bytes that fit the destination are taken off the
    list although the call reports none. *)
Lemma canceled_read_open b dst :
  reachable b → closed b = false → dst ≠ [] →
  ∃ b',
    (∀ ctx,
       ReadWithContext (RecvDone :: ctx) b dst =
         Ret (b',
              take (length dst `min` length (queued b)) (queued b)
                ++ drop (length dst `min` length (queued b)) dst,
              0, Some context_Canceled)) ∧
    queued b' = drop (length dst `min` length (queued b)) (queued b).
Proof.
  intros [segs H]%reachable_holds Hc Hd%nonempty_length.
  destruct (ReadWithContext_loop_open_done b segs dst H Hc Hd)
    as (b' & segs' & Hrun & H' & Hq' & _).
  exists b'. rewrite (queued_holds _ _ H), (queued_holds _ _ H').
  split; [|done]. intros ctx. apply Hrun.
Qed.

(** ** Concrete runs *)

Example run_hello_world :
  (b ← write newBuffer (String.list_byte_of_string "hello");
   b ← write b (String.list_byte_of_string " world");
   b ← eof b;
   '(b, dst1, n1, err1) ← ReadWithContext [RecvData] b (replicate 20 Byte.x00);
   '(b, dst2, n2, err2) ← ReadWithContext [RecvData] b (replicate 20 Byte.x00);
   Ret (take n1 dst1, n1, err1, n2, err2)) =
  Ret (String.list_byte_of_string "hello world", 11, None, 0, Some io_EOF).
Proof. reflexivity. Qed.

Example run_one_byte_reads :
  (b ← write newBuffer (String.list_byte_of_string "ab");
   '(b, dst1, n1, err1) ← ReadWithContext [RecvData] b [Byte.x00];
   '(b, dst2, n2, err2) ← ReadWithContext [RecvData] b [Byte.x00];
   Ret (dst1, n1, err1, dst2, n2, err2)) =
  Ret (String.list_byte_of_string "a", 1, None, String.list_byte_of_string "b", 1, None).
Proof. reflexivity. Qed.

Example run_eof_only :
  (b ← eof newBuffer;
   '(b, dst, n, err) ← ReadWithContext [RecvData] b [Byte.x00];
   Ret (n, err)) = Ret (0, Some io_EOF).
Proof. reflexivity. Qed.

(** Nothing appended, not closed: the call keeps looping until its token
    fires. *)
Example run_token_expires :
  ReadWithContext [RecvData; RecvData; RecvData] newBuffer [Byte.x00] = NoRet ∧
  ReadWithContext [RecvData; RecvData; RecvData; RecvDone] newBuffer
    [Byte.x00] = Ret (newBuffer, [Byte.x00], 0, Some context_Canceled).
Proof. split; reflexivity. Qed.

Example run_wrapped_pipe :
  SetReadDeadline (newBufReaderWithDeadline (memReader [Byte.x61]))
    (Unix 1 0) =
  (newBufReaderWithDeadline (memReader [Byte.x61]), Some unsupported, []).
Proof. reflexivity. Qed.

(** ** The claims *)

(** C1: order preservation, no loss, no duplication.  For every sequence of
    chunks appended with [write] to a new buffer and followed by [eof], and
    every sequence of [ReadWithContext] calls of any destination sizes
    whose tokens never fire: all calls return; the bytes they deliver, one
    after the other, are exactly the first [requested calls] bytes of the
    concatenation of the chunks; no call fails other than with zero bytes
    and io.EOF, and none fails while fewer bytes have been asked for than
    were appended; and once the calls have asked for as many bytes as were
    appended, the concatenation has been delivered whole and a further
    call with a non-empty destination returns (0, io.EOF). *)
Theorem C1_order_preservation :
  ∀ (chunks : list bytes) (calls : list (list select_case * bytes)),
  Forall (λ c, never_fires c.1) calls →
  ∃ b1 b2 b3 rs,
    write_all newBuffer chunks = Ret b1 ∧
    eof b1 = Ret b2 ∧
    read_all b2 calls = Ret (b3, rs) ∧
    length rs = length calls ∧
    concat (received <$> rs) = take (requested calls) (concat chunks) ∧
    Forall (λ r, res_err r = None ∨ (res_err r = Some io_EOF ∧ res_n r = 0))
      rs ∧
    (requested calls < length (concat chunks) →
     Forall (λ r, res_err r = None) rs) ∧
    (length (concat chunks) ≤ requested calls →
     concat (received <$> rs) = concat chunks ∧
     ∀ ctx dst, never_fires ctx → dst ≠ [] →
       ∃ b4, ReadWithContext ctx b3 dst = Ret (b4, dst, 0, Some io_EOF)).
Proof.
  intros chunks calls Hall.
  destruct (write_all_holds chunks newBuffer [[]] holds_newBuffer eq_refl)
    as (b1 & Hw & H1 & Hc1).
  destruct (holds_eof _ _ H1) as (b2 & He & H2 & Hc2 & _).
  destruct (read_all_closed calls b2 _ H2 Hc2 Hall)
    as (b3 & segs3 & rs & Hrs & H3 & Hc3 & Hlen & Hrecv & Hq3 & Herr & Hno).
  simpl in Hrecv, Hq3, Hno.
  exists b1, b2, b3, rs. split_and!; [done..|].
  intros Hge. split; [by rewrite Hrecv, take_ge|].
  intros ctx dst [ctx' ->]%never_fires_cons Hdst%nonempty_length.
  destruct (ReadWithContext_loop_closed_data ctx' b3 segs3 dst 0 H3 Hc3 Hdst)
    as (b4 & segs4 & Hrun & _).
  rewrite Hq3, drop_ge in Hrun by done. simpl in Hrun.
  rewrite Nat.min_0_r, drop_0 in Hrun. simpl in Hrun.
  by exists b4.
Qed.

Lemma C1_order_preservation_witness :
  ∃ b1 b2 b3 rs,
    write_all newBuffer [[Byte.x61; Byte.x62]; [Byte.x63]] = Ret b1 ∧
    eof b1 = Ret b2 ∧
    read_all b2 [([RecvData], [Byte.x00]);
                 ([RecvData], [Byte.x00; Byte.x00; Byte.x00])] = Ret (b3, rs) ∧
    concat (received <$> rs) = [Byte.x61; Byte.x62; Byte.x63].
Proof.
  destruct (C1_order_preservation [[Byte.x61; Byte.x62]; [Byte.x63]]
    [([RecvData], [Byte.x00]); ([RecvData], [Byte.x00; Byte.x00; Byte.x00])])
    as (b1 & b2 & b3 & rs & Hw & He & Hr & _ & Hrecv & _).
  - repeat constructor; discriminate.
  - exists b1, b2, b3, rs. split_and!; [exact Hw|exact He|exact Hr|exact Hrecv].
Defined.

(** C2: the code does not keep this claim on an open buffer.  With "ab"
    queued, a call whose select takes the [ctx.Done()] case returns
    (0, context.Canceled), yet the closure it had handed to the worker runs
    [read] all the same and takes "ab" off the list.  Had the select
    received the count, the call would have returned "ab"; after the
    canceled call nothing is queued, and once [eof] is called the next read
    returns (0, io.EOF) where it would have returned "ab". *)
Theorem C2_canceled_read_consumes_bytes :
  ∃ b b1 b2 b3,
    write newBuffer [Byte.x61; Byte.x62] = Ret b ∧
    queued b = [Byte.x61; Byte.x62] ∧
    ReadWithContext [RecvDone] b [Byte.x00; Byte.x00] =
      Ret (b1, [Byte.x61; Byte.x62], 0, Some context_Canceled) ∧
    queued b1 = [] ∧
    eof b1 = Ret b2 ∧
    ReadWithContext [RecvData] b2 [Byte.x00; Byte.x00] =
      Ret (b2, [Byte.x00; Byte.x00], 0, Some io_EOF) ∧
    eof b = Ret b3 ∧
    ∃ b4, ReadWithContext [RecvData] b3 [Byte.x00; Byte.x00] =
            Ret (b4, [Byte.x61; Byte.x62], 2, None).
Proof.
  eexists _, _, _, _.
  split; [reflexivity|]. split; [reflexivity|]. split; [reflexivity|].
  split; [reflexivity|]. split; [reflexivity|]. split; [reflexivity|].
  split; [reflexivity|]. eexists. reflexivity.
Qed.

(** C3, amended: on every reachable buffer that is closed and has no byte
    queued, a call with a non-empty destination whose select is not taken
    by [ctx.Done()] returns (0, io.EOF), the destination untouched, and the
    buffer stays closed and drained, so every later such call does the
    same; a call whose select takes [ctx.Done()] returns
    (0, context.Canceled) instead and leaves the buffer as it was. *)
Theorem C3_eof_when_closed_and_drained : ∀ (b : buffer) (dst : bytes),
  reachable b → closed b = true → queued b = [] → dst ≠ [] →
  (∃ b',
     (∀ ctx, ReadWithContext (RecvData :: ctx) b dst =
               Ret (b', dst, 0, Some io_EOF)) ∧
     reachable b' ∧ closed b' = true ∧ queued b' = []) ∧
  (∀ ctx, ReadWithContext (RecvDone :: ctx) b dst =
            Ret (b, dst, 0, Some context_Canceled)).
Proof.
  intros b dst Hreach Hc Hq Hdst%nonempty_length.
  destruct (reachable_holds _ Hreach) as [segs H].
  rewrite (queued_holds _ _ H) in Hq.
  split.
  - destruct (read_returns b segs dst H) as (b' & segs' & Hrd & H' & Hq' & Hc').
    rewrite Hq in Hrd, Hq'. simpl in Hrd, Hq'.
    rewrite Nat.min_0_r, drop_0 in Hrd. simpl in Hrd.
    assert (Hrun : ∀ ctx, ReadWithContext (RecvData :: ctx) b dst =
                           Ret (b', dst, 0, Some io_EOF)).
    { intros ctx. unfold ReadWithContext. simpl.
      rewrite decide_True by done.
      by rewrite Hc, (holds_finCh _ _ H), (holds_opCh _ _ H), Hc, Hrd. }
    exists b'. split_and!; [done| |congruence|].
    + by eapply reachable_read, (Hrun []).
    + rewrite (queued_holds _ _ H'), Hq'. by rewrite drop_nil.
  - intros ctx. by apply ReadWithContext_loop_closed_done.
Qed.

Lemma C3_eof_when_closed_and_drained_witness :
  ∃ b', eof newBuffer = Ret b' ∧
    ∃ b'', ∀ ctx, ReadWithContext (RecvData :: ctx) b' [Byte.x00] =
                    Ret (b'', [Byte.x00], 0, Some io_EOF).
Proof.
  exists (Buffer [Element [] None] ChClosed ChClosed (Some 0) (Some 0) true).
  split; [reflexivity|].
  destruct (C3_eof_when_closed_and_drained
    (Buffer [Element [] None] ChClosed ChClosed (Some 0) (Some 0) true)
    [Byte.x00]) as [(b'' & Hrun & _) _].
  - apply (reachable_eof newBuffer); [apply reachable_new|reflexivity].
  - reflexivity.
  - reflexivity.
  - discriminate.
  - exists b''. exact Hrun.
Defined.

(** C3 as stated fails: on the closed, drained buffer that [eof] makes of
    a new one, a call with a one-byte destination whose select takes the
    [ctx.Done()] case returns (0, context.Canceled), not (0, io.EOF). *)
Lemma C3_counterexample :
  ∃ b, eof newBuffer = Ret b ∧ closed b = true ∧ queued b = [] ∧
       ReadWithContext [RecvDone] b [Byte.x00] =
         Ret (b, [Byte.x00], 0, Some context_Canceled).
Proof.
  exists (Buffer [Element [] None] ChClosed ChClosed (Some 0) (Some 0) true).
  split_and!; reflexivity.
Qed.




(** C5: the code does not keep this claim on an open buffer.  With "abc"
    queued and a two-byte destination, a call whose select takes the
    [ctx.Done()] case has "ab" copied into its destination and taken off
    the queue by the [read] it handed to the worker, yet returns
    (0, context.Canceled) instead of the number of bytes copied with a nil
    error, which is what the same call returns when its select receives
    the count. *)
Theorem C5_canceled_read_copies_bytes :
  write newBuffer [Byte.x61; Byte.x62; Byte.x63] = Ret abc_buffer ∧
  queued abc_buffer = [Byte.x61; Byte.x62; Byte.x63] ∧
  ReadWithContext [RecvDone] abc_buffer [Byte.x00; Byte.x00] =
    Ret (Buffer [Element [] (Some 1); Element [Byte.x63] None]
           ChOpen ChOpen (Some 1) (Some 1) false,
         [Byte.x61; Byte.x62], 0, Some context_Canceled) ∧
  queued (Buffer [Element [] (Some 1); Element [Byte.x63] None]
            ChOpen ChOpen (Some 1) (Some 1) false) = [Byte.x63] ∧
  ReadWithContext [RecvData] abc_buffer [Byte.x00; Byte.x00] =
    Ret (Buffer [Element [] (Some 1); Element [Byte.x63] None]
           ChOpen ChOpen (Some 1) (Some 1) false,
         [Byte.x61; Byte.x62], 2, None).
Proof. split_and!; reflexivity. Qed.

(** C6: [eof] is idempotent.  Calling it [k + 1] times in a row has the
    outcome of calling it once: the same buffer (closed flag, channels,
    list), hence the same result for every later read; and a call on a
    buffer that an earlier [eof] returned changes nothing. *)
Theorem C6_eof_idempotent : ∀ (b : buffer) (k : nat),
  eof_times (S k) b = eof b ∧
  (∀ ctx dst,
     (b' ← eof_times (S k) b; ReadWithContext ctx b' dst) =
     (b' ← eof b; ReadWithContext ctx b' dst)) ∧
  (∀ b', eof b = Ret b' → eof b' = Ret b').
Proof.
  intros b k.
  assert (Heq : eof_times (S k) b = eof b).
  { simpl. destruct (eof b) as [b'| |] eqn:He; [|done..].
    simpl. apply eof_times_closed. by eapply eof_closed. }
  split_and!.
  - done.
  - intros ctx dst. by rewrite Heq.
  - intros b' He. apply eof_of_closed. by eapply eof_closed.
Qed.

Lemma C6_eof_idempotent_witness :
  eof (Buffer [Element [] None] ChClosed ChClosed (Some 0) (Some 0) true) =
  Ret (Buffer [Element [] None] ChClosed ChClosed (Some 0) (Some 0) true).
Proof.
  apply (C6_eof_idempotent newBuffer 2). reflexivity.
Defined.

(** C7, amended: the deadline setters of the wrappers return [unsupported]
    without calling the underlying object, which stays as it was, exactly
    when that object has no deadline setter of the kind asked for; when it
    has one, the call is forwarded to it once, with the same time, and the
    state it leaves and the error it returns (which may itself be
    [unsupported]) are what the wrapper returns.  The buffered part of the
    wrapper is never touched. *)
Theorem C7_wrapper_deadline_setters :
  ∀ (S : Type) (r : bufReaderWithDeadline S) (w : bufWriterWithDeadline S)
    (t : Time),
  ((reader_SetReadDeadline (UnderlyingReader r) = None →
    SetReadDeadline r t = (r, Some unsupported, [])) ∧
   (∀ set, reader_SetReadDeadline (UnderlyingReader r) = Some set →
      SetReadDeadline r t =
        (BufReaderWithDeadline (Reader r)
           (IoReader (set (reader_state (UnderlyingReader r)) t).1 (Some set)),
         (set (reader_state (UnderlyingReader r)) t).2,
         [CallSetReadDeadline t])) ∧
   ((SetReadDeadline r t).2 = [] ↔
    reader_SetReadDeadline (UnderlyingReader r) = None)) ∧
  ((writer_SetWriteDeadline (UnderlyingWriter w) = None →
    SetWriteDeadline w t = (w, Some unsupported, [])) ∧
   (∀ set, writer_SetWriteDeadline (UnderlyingWriter w) = Some set →
      SetWriteDeadline w t =
        (BufWriterWithDeadline (Writer w)
           (IoWriter (set (writer_state (UnderlyingWriter w)) t).1 (Some set)),
         (set (writer_state (UnderlyingWriter w)) t).2,
         [CallSetWriteDeadline t])) ∧
   ((SetWriteDeadline w t).2 = [] ↔
    writer_SetWriteDeadline (UnderlyingWriter w) = None)).
Proof.
  intros S [br [rs rset]] [bw [ws wset]] t. split.
  - unfold SetReadDeadline. simpl. split_and!.
    + by intros ->.
    + intros set ->. by destruct (set rs t).
    + destruct rset as [set|]; [|done]. by destruct (set rs t).
  - unfold SetWriteDeadline. simpl. split_and!.
    + by intros ->.
    + intros set ->. by destruct (set ws t).
    + destruct wset as [set|]; [|done]. by destruct (set ws t).
Qed.

Lemma C7_wrapper_deadline_setters_witness :
  SetReadDeadline (newBufReaderWithDeadline (memReader [Byte.x61])) (Unix 5 0) =
    (newBufReaderWithDeadline (memReader [Byte.x61]), Some unsupported, []) ∧
  SetWriteDeadline (newBufWriterWithDeadline (connWriter (Conn None None)))
      (Unix 5 0) =
    (newBufWriterWithDeadline (connWriter (Conn None (Some (Unix 5 0)))),
     None, [CallSetWriteDeadline (Unix 5 0)]).
Proof.
  split.
  - apply (C7_wrapper_deadline_setters bytes
             (newBufReaderWithDeadline (memReader [Byte.x61]))
             (newBufWriterWithDeadline (memWriter [])) (Unix 5 0)).
    reflexivity.
  - destruct (C7_wrapper_deadline_setters conn
                (newBufReaderWithDeadline (connReader (Conn None None)))
                (newBufWriterWithDeadline (connWriter (Conn None None)))
                (Unix 5 0)) as [_ (_ & Hforward & _)].
    apply (Hforward conn_SetWriteDeadline). reflexivity.
Defined.

(** C7 as stated fails: a wrapper around a wrapper around an in-memory
    reader.  The object the outer wrapper wraps does have [SetReadDeadline]
    (it is a [*bufReaderWithDeadline]), the call is forwarded to it, and
    still the outer setter returns [unsupported] and leaves the wrapped
    object as it was. *)
Lemma C7_counterexample :
  reader_SetReadDeadline
    (UnderlyingReader
       (newBufReaderWithDeadline
          (bufReaderWithDeadline_Reader
             (newBufReaderWithDeadline (memReader [Byte.x61]))))) ≠ None ∧
  SetReadDeadline
    (newBufReaderWithDeadline
       (bufReaderWithDeadline_Reader
          (newBufReaderWithDeadline (memReader [Byte.x61]))))
    (Unix 5 0) =
  (newBufReaderWithDeadline
     (bufReaderWithDeadline_Reader
        (newBufReaderWithDeadline (memReader [Byte.x61]))),
   Some unsupported, [CallSetReadDeadline (Unix 5 0)]).
Proof. split; [discriminate|reflexivity]. Qed.

(** C8: [tryCancelReader] (and [tryCancelWriter]) on an object that has the
    deadline setter calls it once with [time.Unix(0, 0)] and returns the
    state it leaves and the error it returns; on an object without it, it
    returns [unsupported], calls nothing and leaves the object as it
    was. *)
Theorem C8_tryCancel :
  ∀ (S : Type) (r : ioReader S) (w : ioWriter S),
  ((∀ set, reader_SetReadDeadline r = Some set →
      tryCancelReader r =
        (IoReader (set (reader_state r) (Unix 0 0)).1 (Some set),
         (set (reader_state r) (Unix 0 0)).2,
         [CallSetReadDeadline (Unix 0 0)])) ∧
   (reader_SetReadDeadline r = None →
    tryCancelReader r = (r, Some unsupported, []))) ∧
  ((∀ set, writer_SetWriteDeadline w = Some set →
      tryCancelWriter w =
        (IoWriter (set (writer_state w) (Unix 0 0)).1 (Some set),
         (set (writer_state w) (Unix 0 0)).2,
         [CallSetWriteDeadline (Unix 0 0)])) ∧
   (writer_SetWriteDeadline w = None →
    tryCancelWriter w = (w, Some unsupported, []))).
Proof.
  intros S [rs rset] [ws wset]. split.
  - unfold tryCancelReader. simpl. split.
    + intros set ->. by destruct (set rs (Unix 0 0)).
    + by intros ->.
  - unfold tryCancelWriter. simpl. split.
    + intros set ->. by destruct (set ws (Unix 0 0)).
    + by intros ->.
Qed.

Lemma C8_tryCancel_witness :
  tryCancelReader (connReader (Conn None None)) =
    (connReader (Conn (Some (Unix 0 0)) None), None,
     [CallSetReadDeadline (Unix 0 0)]) ∧
  tryCancelWriter (memWriter [Byte.x61]) =
    (memWriter [Byte.x61], Some unsupported, []).
Proof.
  split.
  - destruct (C8_tryCancel conn (connReader (Conn None None))
                (connWriter (Conn None None))) as [[Hcall _] _].
    apply (Hcall conn_SetReadDeadline). reflexivity.
  - apply (C8_tryCancel bytes (memReader []) (memWriter [Byte.x61])).
    reflexivity.
Defined.

(** C9: once [eof] has returned on a buffer, so that [closed] is set, every
    later [write] panics (it sends on the closed [opCh]); it is not a call
    that returns. *)
Theorem C9_write_after_eof_panics : ∀ (b : buffer) (data : bytes),
  reachable b →
  (closed b = true → write b data = Panic) ∧
  (∀ b', eof b = Ret b' → closed b' = true ∧ write b' data = Panic).
Proof.
  intros b data Hr.
  assert (Hw : ∀ b0, reachable b0 → closed b0 = true → write b0 data = Panic).
  { intros b0 [segs H]%reachable_holds Hc.
    unfold write. by rewrite (holds_opCh _ _ H), Hc. }
  split; [by apply Hw|].
  intros b' He. pose proof (eof_closed _ _ He) as Hc.
  split; [done|]. apply Hw; [|done]. by eapply reachable_eof.
Qed.

Lemma C9_write_after_eof_panics_witness :
  ∃ b', eof newBuffer = Ret b' ∧ closed b' = true ∧
        write b' [Byte.x61] = Panic.
Proof.
  exists (Buffer [Element [] None] ChClosed ChClosed (Some 0) (Some 0) true).
  split; [reflexivity|].
  apply (C9_write_after_eof_panics newBuffer [Byte.x61] reachable_new).
  reflexivity.
Defined.

(** C10: for every buffer, whatever its state, and every context (token
    fired or not, even with no select left to perform), [ReadWithContext]
    with a zero-length destination returns (0, nil) at once and leaves the
    buffer as it was; it returns neither io.EOF nor context.Canceled. *)
Theorem C10_zero_length_read : ∀ (b : buffer) (ctx : list select_case),
  ReadWithContext ctx b [] = Ret (b, [], 0, None).
Proof. intros b ctx. apply ReadWithContext_loop_nil. Qed.

(** * Further properties of the code *)

Lemma abc_buffer_reachable : reachable abc_buffer.
Proof.
  apply (reachable_write newBuffer [Byte.x61; Byte.x62; Byte.x63]);
    [apply reachable_new|reflexivity].
Qed.

Lemma abc_closed_buffer_reachable : reachable abc_closed_buffer.
Proof.
  apply (reachable_eof abc_buffer); [apply abc_buffer_reachable|reflexivity].
Qed.

(** ** [write], [eof] and [read] on the queue *)

(** X1: on every reachable buffer that is not closed, [write] returns and
    puts exactly the bytes it is given behind the bytes already queued; the
    buffer stays open. *)
Theorem write_appends : ∀ (b : buffer) (data : bytes),
  reachable b → closed b = false →
  ∃ b', write b data = Ret b' ∧ queued b' = queued b ++ data ∧
        closed b' = false.
Proof.
  intros b data [segs H]%reachable_holds Hc.
  destruct (holds_write _ _ data H Hc) as (b' & Hw & H' & Hc').
  exists b'. split_and!; [done| |done].
  rewrite (queued_holds _ _ H), (queued_holds _ _ H'), concat_app. simpl.
  by rewrite app_nil_r.
Qed.

Lemma write_appends_witness :
  ∃ b', write abc_buffer [Byte.x64] = Ret b' ∧
        queued b' = queued abc_buffer ++ [Byte.x64] ∧ closed b' = false.
Proof.
  apply (write_appends abc_buffer [Byte.x64] abc_buffer_reachable).
  reflexivity.
Defined.

(** X2: on every reachable buffer [eof] returns (its test of [closed] keeps
    it from closing [opCh] twice), leaves the buffer closed, and leaves the
    queued bytes as they were. *)
Theorem eof_keeps_queue : ∀ (b : buffer),
  reachable b →
  ∃ b', eof b = Ret b' ∧ closed b' = true ∧ queued b' = queued b.
Proof.
  intros b [segs H]%reachable_holds.
  destruct (holds_eof _ _ H) as (b' & He & H' & Hc' & _).
  exists b'. split_and!; [done..|].
  by rewrite (queued_holds _ _ H), (queued_holds _ _ H').
Qed.

Lemma eof_keeps_queue_witness :
  ∃ b', eof abc_buffer = Ret b' ∧ closed b' = true ∧
        queued b' = queued abc_buffer.
Proof. apply (eof_keeps_queue abc_buffer abc_buffer_reachable). Defined.

(** X3: on every reachable buffer [read] returns
    [min (len dst) (len queued)]; it has moved that many bytes from the
    front of the queue to the front of the destination, across element
    boundaries and empty elements, and touched neither the rest of the
    destination nor [closed]. *)
Theorem read_moves_prefix : ∀ (b : buffer) (dst : bytes),
  reachable b →
  ∃ b',
    read b dst =
      Ret (b',
           take (length dst `min` length (queued b)) (queued b)
             ++ drop (length dst `min` length (queued b)) dst,
           length dst `min` length (queued b)) ∧
    queued b' = drop (length dst `min` length (queued b)) (queued b) ∧
    closed b' = closed b.
Proof.
  intros b dst [segs H]%reachable_holds.
  destruct (read_returns b segs dst H) as (b' & segs' & Hrd & H' & Hq' & Hc').
  exists b'. rewrite (queued_holds _ _ H), (queued_holds _ _ H').
  by split_and!.
Qed.

Lemma read_moves_prefix_witness :
  ∃ b',
    read abc_buffer [Byte.x00; Byte.x00] =
      Ret (b',
           take (length [Byte.x00; Byte.x00] `min` length (queued abc_buffer))
             (queued abc_buffer)
             ++ drop (length [Byte.x00; Byte.x00]
                        `min` length (queued abc_buffer))
                  [Byte.x00; Byte.x00],
           length [Byte.x00; Byte.x00] `min` length (queued abc_buffer)) ∧
    queued b' = drop (length [Byte.x00; Byte.x00]
                        `min` length (queued abc_buffer))
                  (queued abc_buffer) ∧
    closed b' = closed abc_buffer.
Proof.
  apply (read_moves_prefix abc_buffer [Byte.x00; Byte.x00]
           abc_buffer_reachable).
Defined.

(** X4: two [read]s in a row deliver what one [read] into the two
    destinations put end to end delivers: the same bytes, the same total
    count, and the same bytes left queued. *)
Theorem read_twice_is_read_once : ∀ (b : buffer) (d1 d2 : bytes),
  reachable b →
  ∃ b1 o1 n1 b2 o2 n2 b12 o12,
    read b d1 = Ret (b1, o1, n1) ∧
    read b1 d2 = Ret (b2, o2, n2) ∧
    read b (d1 ++ d2) = Ret (b12, o12, n1 + n2) ∧
    take (n1 + n2) o12 = take n1 o1 ++ take n2 o2 ∧
    queued b2 = queued b12.
Proof.
  intros b d1 d2 [segs H]%reachable_holds.
  destruct (read_returns b segs d1 H) as (b1 & segs1 & Hr1 & H1 & Hq1 & _).
  destruct (read_returns b1 segs1 d2 H1) as (b2 & segs2 & Hr2 & H2 & Hq2 & _).
  destruct (read_returns b segs (d1 ++ d2) H)
    as (b12 & segs12 & Hr12 & H12 & Hq12 & _).
  set (c := concat segs) in *.
  set (k1 := length d1 `min` length c) in *.
  assert (Hk2 : length d2 `min` length (concat segs1)
                = length (d1 ++ d2) `min` length c - k1).
  { rewrite Hq1, length_drop, length_app. lia. }
  assert (Hk12 : length (d1 ++ d2) `min` length c
                 = k1 + length d2 `min` length (concat segs1)).
  { rewrite Hq1, length_drop, length_app. lia. }
  rewrite Hk12 in Hr12, Hq12.
  eexists b1, _, _, b2, _, _, b12, _.
  split; [exact Hr1|]. split; [exact Hr2|]. split; [exact Hr12|].
  split.
  - rewrite !take_app_length' by (rewrite length_take; lia).
    rewrite Hq1. by rewrite take_take_drop.
  - rewrite (queued_holds _ _ H2), (queued_holds _ _ H12), Hq2, Hq12, Hq1.
    by rewrite drop_drop.
Qed.

Lemma read_twice_is_read_once_witness :
  ∃ b1 o1 n1 b2 o2 n2 b12 o12,
    read abc_buffer [Byte.x00] = Ret (b1, o1, n1) ∧
    read b1 [Byte.x00] = Ret (b2, o2, n2) ∧
    read abc_buffer ([Byte.x00] ++ [Byte.x00]) = Ret (b12, o12, n1 + n2) ∧
    take (n1 + n2) o12 = take n1 o1 ++ take n2 o2 ∧
    queued b2 = queued b12.
Proof.
  apply (read_twice_is_read_once abc_buffer [Byte.x00] [Byte.x00]
           abc_buffer_reachable).
Defined.

(** X5: no call on a reachable buffer dereferences a nil pointer or closes
    a closed channel: [eof], [read] and [ReadWithContext] never panic, and
    [write] panics exactly when the buffer is closed. *)
Theorem reachable_never_panics : ∀ (b : buffer),
  reachable b →
  eof b ≠ Panic ∧
  (∀ dst, read b dst ≠ Panic) ∧
  (∀ ctx dst, ReadWithContext ctx b dst ≠ Panic) ∧
  (∀ data, write b data = Panic ↔ closed b = true).
Proof.
  intros b [segs H]%reachable_holds. split_and!.
  - destruct (holds_eof _ _ H) as (b' & -> & _). done.
  - intros dst. destruct (read_returns b segs dst H) as (? & ? & -> & _). done.
  - intros ctx dst. by eapply ReadWithContext_loop_no_panic.
  - intros data. destruct (closed b) eqn:Hc.
    + split; [done|]. intros _. unfold write.
      by rewrite (holds_opCh _ _ H), Hc.
    + destruct (holds_write _ _ data H Hc) as (b' & -> & _). done.
Qed.

Lemma reachable_never_panics_witness :
  eof abc_buffer ≠ Panic ∧
  (∀ dst, read abc_buffer dst ≠ Panic) ∧
  (∀ ctx dst, ReadWithContext ctx abc_buffer dst ≠ Panic) ∧
  (∀ data, write abc_buffer data = Panic ↔ closed abc_buffer = true).
Proof. apply (reachable_never_panics abc_buffer abc_buffer_reachable). Defined.

(** ** What [ReadWithContext] reports *)

(** X6: a call with a non-empty destination that returns reports one of
    three things: at least one byte, at most the destination length, with
    a nil error; or no byte with io.EOF, and then the buffer was closed
    with nothing queued and the destination is untouched; or no byte with
    context.Canceled.  It never reports (0, nil) and never a count together
    with an error. *)
Theorem ReadWithContext_reports : ∀ (b : buffer) (ctx : list select_case)
    (dst : bytes) b' dst' n err,
  reachable b → dst ≠ [] →
  ReadWithContext ctx b dst = Ret (b', dst', n, err) →
  length dst' = length dst ∧
  ((err = None ∧ 0 < n ∧ n ≤ length dst) ∨
   (err = Some io_EOF ∧ n = 0 ∧ closed b = true ∧ queued b = [] ∧
    dst' = dst) ∨
   (err = Some context_Canceled ∧ n = 0)).
Proof.
  intros b ctx dst b' dst' n err [segs H]%reachable_holds Hd%nonempty_length
    Hrun.
  rewrite (queued_holds _ _ H).
  destruct (ReadWithContext_loop_result _ _ _ _ _ _ _ _ _ H Hd Hrun)
    as (Hl & [?|[?|(? & Hn)]]); split; auto.
  right; right. split; [done|]. by destruct Hn.
Qed.

Lemma ReadWithContext_reports_witness :
  length [Byte.x61; Byte.x62] = length [Byte.x00; Byte.x00] ∧
  ((@None error = None ∧ 0 < 2 ∧ 2 ≤ length [Byte.x00; Byte.x00]) ∨
   (@None error = Some io_EOF ∧ 2 = 0 ∧ closed abc_buffer = true ∧
    queued abc_buffer = [] ∧ [Byte.x61; Byte.x62] = [Byte.x00; Byte.x00]) ∨
   (@None error = Some context_Canceled ∧ 2 = 0)).
Proof.
  apply (ReadWithContext_reports abc_buffer [RecvData] [Byte.x00; Byte.x00]
           (Buffer [Element [] (Some 1); Element [Byte.x63] None]
              ChOpen ChOpen (Some 1) (Some 1) false)
           [Byte.x61; Byte.x62] 2 None abc_buffer_reachable).
  - discriminate.
  - reflexivity.
Defined.

(** X7: a call that returns and none of whose selects took [ctx.Done()]
    has written the first [n] queued bytes to the first [n] places of the
    destination and nothing behind them, and has left the other queued
    bytes queued, in order; [n] is [min (len dst) (len queued)]. *)
Theorem uncanceled_read_effect : ∀ (b : buffer) (ctx : list select_case)
    (dst : bytes) b' dst' n err,
  reachable b → Forall (λ sel, sel = RecvData) ctx →
  ReadWithContext ctx b dst = Ret (b', dst', n, err) →
  n = length dst `min` length (queued b) ∧
  dst' = take n (queued b) ++ drop n dst ∧
  queued b' = drop n (queued b) ∧
  closed b' = closed b.
Proof.
  intros b ctx dst b' dst' n err [segs H]%reachable_holds Hall Hrun.
  rewrite (queued_holds _ _ H).
  destruct (decide (0 < length dst)) as [Hd|Hd].
  - destruct (ReadWithContext_loop_uncanceled _ _ _ _ _ _ _ _ _ H Hall Hd Hrun)
      as (Hn & Hdst & _ & segs' & H' & Hq' & Hc').
    by rewrite (queued_holds _ _ H').
  - assert (dst = []) as -> by (destruct dst; simpl in *; [done|lia]).
    unfold ReadWithContext in Hrun. rewrite ReadWithContext_loop_nil in Hrun.
    simplify_eq. simpl. rewrite drop_0, (queued_holds _ _ H). done.
Qed.

Lemma uncanceled_read_effect_witness :
  2 = length [Byte.x00; Byte.x00] `min` length (queued abc_buffer) ∧
  [Byte.x61; Byte.x62] =
    take 2 (queued abc_buffer) ++ drop 2 [Byte.x00; Byte.x00] ∧
  queued (Buffer [Element [] (Some 1); Element [Byte.x63] None]
            ChOpen ChOpen (Some 1) (Some 1) false) =
    drop 2 (queued abc_buffer) ∧
  closed (Buffer [Element [] (Some 1); Element [Byte.x63] None]
            ChOpen ChOpen (Some 1) (Some 1) false) = closed abc_buffer.
Proof.
  apply (uncanceled_read_effect abc_buffer [RecvData] [Byte.x00; Byte.x00]
           _ _ _ None abc_buffer_reachable).
  - repeat constructor.
  - reflexivity.
Defined.

(** X8: reads block while no data is available.  On a reachable buffer
    that is open with nothing queued, a call with a non-empty destination
    does not return, however many times its select receives the count, as
    long as the token does not fire. *)
Theorem read_blocks_without_data : ∀ (b : buffer) (ctx : list select_case)
    (dst : bytes),
  reachable b → closed b = false → queued b = [] → dst ≠ [] →
  Forall (λ sel, sel = RecvData) ctx →
  ReadWithContext ctx b dst = NoRet.
Proof.
  intros b ctx dst [segs H]%reachable_holds Hc Hq Hd%nonempty_length Hall.
  rewrite (queued_holds _ _ H) in Hq.
  by eapply ReadWithContext_loop_blocks.
Qed.

Lemma read_blocks_without_data_witness :
  ReadWithContext [RecvData; RecvData; RecvData; RecvData] newBuffer
    [Byte.x00] = NoRet.
Proof.
  apply (read_blocks_without_data newBuffer
           [RecvData; RecvData; RecvData; RecvData] [Byte.x00] reachable_new).
  - reflexivity.
  - reflexivity.
  - discriminate.
  - repeat constructor.
Defined.

(** X9: reads do not block once the buffer is closed.  On a reachable
    closed buffer every call returns at its first select, whichever case
    the select takes. *)
Theorem read_returns_when_closed : ∀ (b : buffer) (sel : select_case)
    (ctx : list select_case) (dst : bytes),
  reachable b → closed b = true →
  ∃ b' dst' n err,
    ReadWithContext (sel :: ctx) b dst = Ret (b', dst', n, err) ∧
    ReadWithContext [sel] b dst = Ret (b', dst', n, err).
Proof.
  intros b sel ctx dst [segs H]%reachable_holds Hc.
  destruct (decide (0 < length dst)) as [Hd|Hd].
  - destruct sel.
    + destruct (ReadWithContext_loop_closed_data ctx b segs dst 0 H Hc Hd)
        as (b1 & segs1 & Hrun1 & _).
      unfold ReadWithContext. rewrite Hrun1.
      assert (Hsame : ReadWithContext_loop [RecvData] b dst 0
                      = ReadWithContext_loop (RecvData :: ctx) b dst 0).
      { simpl. rewrite !decide_True by done. by rewrite Hc. }
      rewrite Hsame, Hrun1. eauto 10.
    + unfold ReadWithContext.
      rewrite !ReadWithContext_loop_closed_done by done. eauto 10.
  - assert (dst = []) as -> by (destruct dst; simpl in *; [done|lia]).
    unfold ReadWithContext. rewrite !ReadWithContext_loop_nil. eauto 10.
Qed.

Lemma read_returns_when_closed_witness :
  ∃ b' dst' n err,
    ReadWithContext (RecvData :: [RecvDone]) abc_closed_buffer
      [Byte.x00] = Ret (b', dst', n, err) ∧
    ReadWithContext [RecvData] abc_closed_buffer [Byte.x00] =
      Ret (b', dst', n, err).
Proof.
  apply (read_returns_when_closed abc_closed_buffer RecvData [RecvDone]
           [Byte.x00] abc_closed_buffer_reachable).
  reflexivity.
Defined.

(** X19: short reads.  On every reachable buffer: when bytes are queued, a
    call with a non-empty destination whose first select receives the count
    returns at that select, without looking at the rest of the context: the
    count is [min (len dst) (len queued)] and is positive, the error is nil,
    the destination starts with that many queued bytes, and the others stay
    queued.  And every call that returns a positive count returns this
    count with a nil error. *)
Theorem short_read_returns : ∀ (b : buffer) (dst : bytes),
  reachable b →
  (dst ≠ [] → queued b ≠ [] →
   ∃ b',
     (∀ ctx,
        ReadWithContext (RecvData :: ctx) b dst =
          Ret (b',
               take (length dst `min` length (queued b)) (queued b)
                 ++ drop (length dst `min` length (queued b)) dst,
               length dst `min` length (queued b), None)) ∧
     0 < length dst `min` length (queued b) ∧
     queued b' = drop (length dst `min` length (queued b)) (queued b) ∧
     closed b' = closed b) ∧
  (∀ ctx b' dst' n err,
     ReadWithContext ctx b dst = Ret (b', dst', n, err) → 0 < n →
     n = length dst `min` length (queued b) ∧ err = None ∧
     take n dst' = take n (queued b)).
Proof.
  intros b dst Hreach.
  destruct (reachable_holds _ Hreach) as [segs H].
  rewrite (queued_holds _ _ H) in *.
  assert (Hone : 0 < length dst `min` length (concat segs) →
    ∃ b' segs', (∀ ctx n0,
        ReadWithContext_loop (RecvData :: ctx) b dst n0 =
          Ret (b',
               take (length dst `min` length (concat segs)) (concat segs)
                 ++ drop (length dst `min` length (concat segs)) dst,
               length dst `min` length (concat segs), None)) ∧
        holds b' segs' ∧
        concat segs' = drop (length dst `min` length (concat segs))
                         (concat segs) ∧
        closed b' = closed b).
  { intros Hk. assert (Hdst : 0 < length dst) by lia.
    destruct (closed b) eqn:Hc.
    - destruct (read_returns b segs dst H) as (b' & segs' & Hrd & H' & ? & ?).
      exists b', segs'. split; [|split_and!; [done..|congruence]].
      intros ctx n0. simpl. rewrite decide_True by done.
      rewrite Hc, (holds_finCh _ _ H), (holds_opCh _ _ H), Hc, Hrd. simpl.
      by rewrite decide_True.
    - destruct (ReadWithContext_loop_open_data b segs dst H Hc Hdst)
        as (b' & segs' & Hrun & H' & Hq' & Hc').
      exists b', segs'. split; [|done].
      intros ctx n0. rewrite Hrun. by rewrite decide_True. }
  split.
  - intros Hdst%nonempty_length Hq.
    assert (Hk : 0 < length dst `min` length (concat segs)).
    { destruct (concat segs); simpl; [done|lia]. }
    destruct (Hone Hk) as (b' & segs' & Hrun & H' & Hq' & Hc').
    exists b'. split_and!; [intros; apply Hrun|done| |done].
    by rewrite (queued_holds _ _ H').
  - intros ctx b1 dst1 n err Hret Hn.
    destruct (decide (0 < length dst `min` length (concat segs))) as [Hk|Hk].
    + destruct (Hone Hk) as (b' & segs' & Hrun & _).
      assert (Hdst : 0 < length dst) by lia.
      unfold ReadWithContext in Hret. destruct ctx as [|[] ctx].
      * simpl in Hret. by rewrite decide_True in Hret.
      * rewrite Hrun in Hret. simplify_eq. split_and!; [done..|].
        rewrite take_app_length'; [done|]. rewrite length_take. lia.
      * destruct (closed b) eqn:Hc.
        -- rewrite ReadWithContext_loop_closed_done in Hret by done.
           simplify_eq. lia.
        -- destruct (ReadWithContext_loop_open_done b segs dst H Hc Hdst)
             as (? & ? & Hrun' & _).
           rewrite Hrun' in Hret. simplify_eq. lia.
    + destruct (decide (0 < length dst)) as [Hdst|Hdst].
      * assert (Hq : concat segs = [])
          by (destruct (concat segs); simpl in *; [done|lia]).
        destruct (ReadWithContext_loop_drained _ _ _ _ _ _ _ _ _ H Hq Hret);
          lia.
      * unfold ReadWithContext in Hret. destruct ctx; simpl in Hret;
          rewrite decide_False in Hret by done; simplify_eq; lia.
Qed.

Lemma short_read_returns_witness :
  ∃ b',
    (∀ ctx,
       ReadWithContext (RecvData :: ctx)
         (Buffer [Element [] (Some 1); Element [Byte.x61; Byte.x62] None]
            ChOpen ChOpen (Some 0) (Some 1) false)
         [Byte.x00; Byte.x00; Byte.x00; Byte.x00; Byte.x00] =
       Ret (b', [Byte.x61; Byte.x62; Byte.x00; Byte.x00; Byte.x00], 2, None)) ∧
    queued b' = [].
Proof.
  destruct (short_read_returns
    (Buffer [Element [] (Some 1); Element [Byte.x61; Byte.x62] None]
       ChOpen ChOpen (Some 0) (Some 1) false)
    [Byte.x00; Byte.x00; Byte.x00; Byte.x00; Byte.x00])
    as [Hshort _].
  - apply (reachable_write newBuffer [Byte.x61; Byte.x62]);
      [apply reachable_new|reflexivity].
  - destruct Hshort as (b' & Hrun & _ & Hq & _); [discriminate..|].
    exists b'. split; [exact Hrun|exact Hq].
Defined.

(** ** Sequences of calls *)

(** Once closed, a well-formed buffer stays closed over any sequence of
    calls that return; none of them is a [write], and the queue only loses
    bytes at its front. *)
Lemma run_closed ops : ∀ b segs b' rs,
  holds b segs → closed b = true → run b ops = Ret (b', rs) →
  no_write ops ∧
  ∃ segs' k, holds b' segs' ∧ closed b' = true ∧
             concat segs' = drop k (concat segs).
Proof.
  induction ops as [|[data| |ctx dst] ops IH];
    intros b segs b' rs H Hc Hrun; simpl in Hrun.
  - simplify_eq. split; [constructor|]. exists segs, 0. by rewrite drop_0.
  - unfold write in Hrun. by rewrite (holds_opCh _ _ H), Hc in Hrun.
  - rewrite eof_of_closed in Hrun by done. simpl in Hrun.
    destruct (IH _ _ _ _ H Hc Hrun) as (Hnw & ?).
    split; [by constructor|done].
  - destruct (ReadWithContext ctx b dst) as [[[[b1 dst1] n1] err1]| |] eqn:Hr;
      [|done..]. simpl in Hrun.
    destruct (run b1 ops) as [[b2 rs2]| |] eqn:Hrun2; [|done..].
    simpl in Hrun. simplify_eq.
    destruct (ReadWithContext_loop_holds _ _ _ _ _ _ _ _ _ H Hr)
      as (segs1 & k1 & H1 & Hq1 & Hc1).
    rewrite Hc in Hc1.
    destruct (IH _ _ _ _ H1 Hc1 Hrun2) as (Hnw & segs' & k & H' & Hc' & Hq').
    split; [by constructor|].
    exists segs', (k1 + k). split_and!; [done..|].
    by rewrite Hq', Hq1, drop_drop.
Qed.

(** X10: conservation.  Over any sequence of [write], [eof] and
    [ReadWithContext] calls on a new buffer, all of which return and none
    of which is aborted by its token, the bytes delivered by the reads, in
    order, followed by the bytes still queued, are the bytes appended by
    the writes, in order: nothing is lost, repeated or reordered, however
    reads and writes alternate. *)
Theorem delivered_and_queued_are_written : ∀ (ops : list op) b' rs,
  uncanceled ops → run newBuffer ops = Ret (b', rs) →
  concat (received <$> rs) ++ queued b' = written ops.
Proof.
  intros ops b' rs Hall Hrun.
  by rewrite (run_conservation ops _ _ _ _ holds_newBuffer Hall Hrun).
Qed.

Lemma delivered_and_queued_are_written_witness :
  concat (received <$> [ReadResult [Byte.x61] 1 None;
                        ReadResult [Byte.x62; Byte.x63] 2 None])
    ++ queued (Buffer [Element [] (Some 1); Element [] (Some 2);
                       Element [Byte.x64] None]
                 ChOpen ChOpen (Some 2) (Some 2) false) =
  written [OpWrite [Byte.x61; Byte.x62]; OpRead [RecvData] [Byte.x00];
           OpWrite [Byte.x63; Byte.x64];
           OpRead [RecvData] [Byte.x00; Byte.x00]].
Proof.
  apply (delivered_and_queued_are_written
           [OpWrite [Byte.x61; Byte.x62]; OpRead [RecvData] [Byte.x00];
            OpWrite [Byte.x63; Byte.x64];
            OpRead [RecvData] [Byte.x00; Byte.x00]]).
  - repeat constructor.
  - reflexivity.
Defined.

(** X11: closing is final.  From a reachable closed buffer, every sequence
    of calls that all return leaves the buffer closed and holds no [write];
    what is queued afterwards is what was queued before, less some bytes
    at its front. *)
Theorem closed_is_final : ∀ (b : buffer) (ops : list op) b' rs,
  reachable b → closed b = true → run b ops = Ret (b', rs) →
  closed b' = true ∧ no_write ops ∧
  ∃ k, queued b' = drop k (queued b).
Proof.
  intros b ops b' rs [segs H]%reachable_holds Hc Hrun.
  destruct (run_closed _ _ _ _ _ H Hc Hrun) as (Hnw & segs' & k & H' & Hc' & Hq').
  split_and!; [done..|]. exists k.
  by rewrite (queued_holds _ _ H), (queued_holds _ _ H').
Qed.

Lemma closed_is_final_witness :
  closed (Buffer [Element [] (Some 1); Element [Byte.x63] None]
            ChClosed ChClosed (Some 1) (Some 1) true) = true ∧
  no_write [OpRead [RecvData] [Byte.x00; Byte.x00]; OpEof] ∧
  ∃ k, queued (Buffer [Element [] (Some 1); Element [Byte.x63] None]
                 ChClosed ChClosed (Some 1) (Some 1) true) =
       drop k (queued abc_closed_buffer).
Proof.
  apply (closed_is_final abc_closed_buffer
           [OpRead [RecvData] [Byte.x00; Byte.x00]; OpEof] _
           [ReadResult [Byte.x61; Byte.x62] 2 None]
           abc_closed_buffer_reachable).
  - reflexivity.
  - reflexivity.
Defined.

(** X12: a call aborted by its token has taken nothing, and written
    nothing to the destination, when the buffer is closed or has nothing
    queued: the queued bytes are the same before and after. *)
Theorem canceled_read_keeps_queue : ∀ (b : buffer) (ctx : list select_case)
    (dst : bytes) b' dst' n,
  reachable b → closed b = true ∨ queued b = [] →
  ReadWithContext ctx b dst = Ret (b', dst', n, Some context_Canceled) →
  queued b' = queued b ∧ dst' = dst ∧ n = 0.
Proof.
  intros b ctx dst b' dst' n [segs H]%reachable_holds Hor Hrun.
  rewrite (queued_holds _ _ H) in *.
  destruct (ReadWithContext_loop_canceled_keeps _ _ _ _ _ _ _ _ H Hor Hrun)
    as (-> & segs' & H' & Hq').
  rewrite (queued_holds _ _ H'). split_and!; [done..|].
  by destruct (ReadWithContext_loop_canceled _ _ _ _ _ _ _ Hrun).
Qed.

Lemma canceled_read_keeps_queue_witness :
  queued abc_closed_buffer = queued abc_closed_buffer ∧
  [Byte.x00] = [Byte.x00] ∧ 0 = 0.
Proof.
  apply (canceled_read_keeps_queue abc_closed_buffer [RecvDone] [Byte.x00]
           abc_closed_buffer [Byte.x00] 0 abc_closed_buffer_reachable).
  - by left.
  - reflexivity.
Defined.

(** ** A read with the producer at work *)

Lemma produce_holds ps : ∀ b segs b',
  holds b segs → produce b ps = Ret b' →
  ∃ segs', holds b' segs' ∧ concat segs' = concat segs ++ appended ps ∧
           (closed b = true → closed b' = true).
Proof.
  induction ps as [|[data|] ps IH]; intros b segs b' H Hrun; simpl in Hrun.
  - simplify_eq. exists segs. by rewrite app_nil_r.
  - destruct (write b data) as [b1| |] eqn:Hw; [|done..]. simpl in Hrun.
    destruct (closed b) eqn:Hc.
    { unfold write in Hw. by rewrite (holds_opCh _ _ H), Hc in Hw. }
    destruct (holds_write _ _ data H Hc) as (b2 & Hw2 & H2 & _).
    rewrite Hw in Hw2. simplify_eq.
    destruct (IH _ _ _ H2 Hrun) as (segs' & H' & Hq' & _).
    exists segs'. split_and!; [done| |done].
    rewrite Hq', concat_app. simpl. by rewrite app_nil_r, <- (assoc_L (++)).
  - destruct (eof b) as [b1| |] eqn:He; [|done..]. simpl in Hrun.
    destruct (holds_eof _ _ H) as (b2 & He2 & H2 & Hc2 & _).
    rewrite He in He2. simplify_eq.
    destruct (IH _ _ _ H2 Hrun) as (segs' & H' & Hq' & Hc').
    exists segs'. split_and!; [done..|]. intros _. by apply Hc'.
Qed.

(** With an idle producer the loop is the loop of [ReadWithContext]. *)
Lemma ReadWithContext_during_idle ctx : ∀ b dst n,
  ReadWithContext_during ((λ sel, ([], sel)) <$> ctx) b dst n =
  ReadWithContext_loop ctx b dst n.
Proof.
  induction ctx as [|sel ctx IH]; intros b dst n; [done|].
  simpl. case_decide; [|done].
  destruct (closed b); [done|].
  destruct (opCh b); [|done].
  destruct (read b dst) as [[[b1 dst1] r]| |]; simpl; [|done..].
  destruct sel; [|done]. case_decide; [done|]. apply IH.
Qed.

(** One iteration with the producer at work: the call returns from it as
    [ReadWithContext] does from a first iteration on the buffer the
    producer has left, when that buffer is closed, the select takes
    [ctx.Done()], or a byte is queued; otherwise the loop goes on. *)
Lemma ReadWithContext_during_cons b ps b1 segs1 dst :
  produce b ps = Ret b1 → holds b1 segs1 → 0 < length dst →
  ∃ b2 segs2,
    holds b2 segs2 ∧ concat segs2 = concat segs1 ∧ closed b2 = closed b1 ∧
    ∀ sel sched n0,
      ReadWithContext_during ((ps, sel) :: sched) b dst n0 =
        if decide (closed b1 = true ∨ sel = RecvDone ∨
                   0 < length dst `min` length (concat segs1))
        then ReadWithContext_loop [sel] b1 dst n0
        else ReadWithContext_during sched b2 dst 0.
Proof.
  intros Hp H1 Hd.
  destruct (read_returns b1 segs1 dst H1) as (b2 & segs2 & Hrd & H2 & Hq2 & Hc2).
  destruct (decide (0 < length dst `min` length (concat segs1))) as [Hk|Hk].
  - exists b1, segs1. split_and!; [done..|]. intros sel sched n0.
    rewrite decide_True by auto.
    simpl. rewrite !(decide_True (P:=0 < length dst)) by done.
    rewrite Hp. simpl.
    destruct (closed b1); [done|].
    destruct (opCh b1); [|done]. rewrite Hrd. simpl.
    destruct sel; [|done]. by rewrite !decide_True by done.
  - exists b2, segs2. split_and!; [done| |done|].
    { rewrite Hq2.
      replace (length dst `min` length (concat segs1)) with 0 by lia.
      by rewrite drop_0. }
    intros sel sched n0.
    simpl. rewrite !(decide_True (P:=0 < length dst)) by done.
    rewrite Hp. simpl.
    destruct (closed b1) eqn:Hc1.
    { by rewrite decide_True by auto. }
    rewrite (holds_opCh _ _ H1), Hc1, Hrd. simpl.
    destruct sel.
    + rewrite (decide_False (P:=_ ∨ _)) by (intros [?|[?|?]]; done).
      rewrite !(decide_False (P:=0 < length dst `min` _)) by done.
      replace (length dst `min` length (concat segs1)) with 0 by lia.
      by rewrite drop_0.
    + by rewrite decide_True by auto.
Qed.

(** Whether a sequence of producer calls returns depends on the buffer
    only through [closed]. *)
Lemma produce_transfer ps : ∀ b segs b1 b2 segs2,
  holds b segs → holds b2 segs2 → closed b2 = closed b →
  produce b ps = Ret b1 →
  ∃ b3, produce b2 ps = Ret b3 ∧ closed b3 = closed b1.
Proof.
  induction ps as [|[data|] ps IH]; intros b segs b1 b2 segs2 H H2 Hc Hrun;
    simpl in Hrun |- *.
  - simplify_eq. eauto.
  - destruct (write b data) as [b'| |] eqn:Hw; [|done..]. simpl in Hrun.
    destruct (closed b) eqn:Hcb.
    { unfold write in Hw. by rewrite (holds_opCh _ _ H), Hcb in Hw. }
    destruct (holds_write _ _ data H Hcb) as (b'' & Hw' & H' & Hc').
    rewrite Hw in Hw'. simplify_eq.
    destruct (holds_write _ _ data H2 Hc) as (b2' & -> & H2' & Hc2').
    simpl. eapply IH; [exact H'|exact H2'|congruence|done].
  - destruct (eof b) as [b'| |] eqn:He; [|done..]. simpl in Hrun.
    destruct (holds_eof _ _ H) as (b'' & He' & H' & Hc' & _).
    rewrite He in He'. simplify_eq.
    destruct (holds_eof _ _ H2) as (b2' & -> & H2' & Hc2' & _).
    simpl. eapply IH; [exact H'|exact H2'|congruence|done].
Qed.

(** Iterations during which nothing happens leave an open buffer with
    nothing queued open with nothing queued. *)
Lemma ReadWithContext_during_idle_prefix k dst : ∀ b segs,
  holds b segs → closed b = false → concat segs = [] → 0 < length dst →
  ∃ b2 segs2,
    holds b2 segs2 ∧ concat segs2 = [] ∧ closed b2 = false ∧
    ∀ rest, ReadWithContext_during (idle k ++ rest) b dst 0 =
            ReadWithContext_during rest b2 dst 0.
Proof.
  induction k as [|k IH]; intros b segs H Hc Hq Hd.
  { exists b, segs. by split_and!. }
  destruct (ReadWithContext_during_cons b [] b segs dst eq_refl H Hd)
    as (b1 & segs1 & H1 & Hq1 & Hc1 & Hstep).
  destruct (IH b1 segs1) as (b2 & segs2 & H2 & Hq2 & Hc2 & Hrest);
    [done|congruence|congruence|done|].
  exists b2, segs2. split_and!; [done..|]. intros rest.
  change (idle (S k) ++ rest) with (([], RecvData) :: (idle k ++ rest)).
  rewrite Hstep, Hq. simpl.
  rewrite decide_False; [apply Hrest|].
  rewrite Hc, Nat.min_0_r. intros [?|[?|?]]; [done|done|lia].
Qed.

Lemma ReadWithContext_during_result sched : ∀ b segs dst n0 b' dst' n err,
  holds b segs → 0 < length dst →
  ReadWithContext_during sched b dst n0 = Ret (b', dst', n, err) →
  length dst' = length dst ∧
  ∃ segs', holds b' segs' ∧
    ((err = None ∧ 0 < n ∧ n ≤ length dst) ∨
     (err = Some io_EOF ∧ n = 0 ∧ closed b' = true ∧ concat segs' = [] ∧
      dst' = dst) ∨
     (err = Some context_Canceled ∧ (n = n0 ∨ n = 0))).
Proof.
  induction sched as [|[ps sel] sched IH];
    intros b segs dst n0 b' dst' n err H Hd Hrun.
  { simpl in Hrun. by rewrite decide_True in Hrun. }
  destruct (produce b ps) as [b1| |] eqn:Hp.
  2,3: simpl in Hrun; rewrite decide_True in Hrun by done;
       by rewrite Hp in Hrun.
  destruct (produce_holds _ _ _ _ H Hp) as (segs1 & H1 & Hq1 & _).
  destruct (ReadWithContext_during_cons b ps b1 segs1 dst Hp H1 Hd)
    as (b2 & segs2 & H2 & Hq2 & Hc2 & Hstep).
  rewrite Hstep in Hrun. case_decide.
  - destruct (ReadWithContext_loop_result _ _ _ _ _ _ _ _ _ H1 Hd Hrun)
      as (Hl & Hres).
    destruct (ReadWithContext_loop_holds _ _ _ _ _ _ _ _ _ H1 Hrun)
      as (segs' & k & H' & Hq' & Hc').
    split; [done|]. exists segs'. split; [done|].
    destruct Hres as [?|[(? & ? & Hcl & Hq & ?)|?]]; [by left| |by right; right].
    right; left. split_and!; [done|done|congruence| |done].
    by rewrite Hq', Hq, drop_nil.
  - destruct (IH _ _ _ _ _ _ _ _ H2 Hd Hrun) as (Hl & segs' & H' & Hres).
    split; [done|]. exists segs'. split; [done|].
    destruct Hres as [?|[?|(? & Hn)]]; [by left|by right; left|].
    right; right. split; [done|]. right. by destruct Hn.
Qed.

(** A call that is still running after the iterations of [pre] and
    returns at the next one, none of its selects taking [ctx.Done()]. *)
Lemma ReadWithContext_during_conservation pre :
  ∀ e b segs dst b' dst' n err,
  holds b segs → Forall (λ e, e.2 = RecvData) (pre ++ [e]) →
  ReadWithContext_during pre b dst 0 = NoRet →
  ReadWithContext_during (pre ++ [e]) b dst 0 = Ret (b', dst', n, err) →
  ∃ segs',
    holds b' segs' ∧
    take n dst' ++ concat segs' =
      concat segs ++ concat ((λ e, appended e.1) <$> (pre ++ [e])).
Proof.
  induction pre as [|[ps sel] pre IH];
    intros e b segs dst b' dst' n err H Hall Hnot Hrun.
  - simpl in Hnot. case_decide as Hd; [|done]. clear Hnot.
    destruct e as [ps sel]. apply Forall_cons in Hall as [Hsel _].
    simpl in Hsel. subst sel. simpl app in Hrun.
    destruct (produce b ps) as [b1| |] eqn:Hp.
    2,3: simpl in Hrun; rewrite decide_True in Hrun by done;
         by rewrite Hp in Hrun.
    destruct (produce_holds _ _ _ _ H Hp) as (segs1 & H1 & Hq1 & _).
    destruct (ReadWithContext_during_cons b ps b1 segs1 dst Hp H1 Hd)
      as (b2 & segs2 & H2 & Hq2 & Hc2 & Hstep).
    rewrite Hstep in Hrun. case_decide.
    + destruct (ReadWithContext_loop_data [RecvData] _ _ _ _ _ _ _ _ H1
                  ltac:(by repeat constructor) Hrun) as (segs' & H' & Hq').
      exists segs'. split; [done|]. simpl. by rewrite Hq', Hq1, app_nil_r.
    + simpl in Hrun. by rewrite decide_True in Hrun.
  - destruct (decide (0 < length dst)) as [Hd|Hd].
    2: { simpl in Hnot. by rewrite decide_False in Hnot. }
    change (((ps, sel) :: pre) ++ [e]) with ((ps, sel) :: (pre ++ [e]))
      in Hall, Hrun |- *.
    apply Forall_cons in Hall as [Hsel Hall]. simpl in Hsel. subst sel.
    destruct (produce b ps) as [b1| |] eqn:Hp.
    2,3: simpl in Hrun; rewrite decide_True in Hrun by done;
         by rewrite Hp in Hrun.
    destruct (produce_holds _ _ _ _ H Hp) as (segs1 & H1 & Hq1 & _).
    destruct (ReadWithContext_during_cons b ps b1 segs1 dst Hp H1 Hd)
      as (b2 & segs2 & H2 & Hq2 & Hc2 & Hstep).
    rewrite Hstep in Hnot, Hrun. case_decide; [congruence|].
    destruct (IH _ _ _ _ _ _ _ _ H2 Hall Hnot Hrun) as (segs' & H' & Hq').
    exists segs'. split; [done|].
    rewrite fmap_cons. cbn [concat fst].
    by rewrite Hq', Hq2, Hq1, <- (assoc_L (++)).
Qed.

(** X13: a blocked read is woken by a write.  A call on a reachable open
    buffer with nothing queued loops for as long as the producer does
    nothing; at the first iteration before which the producer has appended
    at least one byte (by calls that return), it returns the first
    [min (len dst) (len appended)] appended bytes with a nil error and
    leaves the others queued. *)
Theorem read_wakes_on_write :
  ∀ (b : buffer) (k : nat) (ps : list producer_call) b1
    (sched : list (list producer_call * select_case)) (dst : bytes),
  reachable b → closed b = false → queued b = [] → dst ≠ [] →
  produce b ps = Ret b1 → appended ps ≠ [] →
  ∃ b',
    ReadWithContext_during (idle k ++ (ps, RecvData) :: sched) b dst 0 =
      Ret (b',
           take (length dst `min` length (appended ps)) (appended ps)
             ++ drop (length dst `min` length (appended ps)) dst,
           length dst `min` length (appended ps), None) ∧
    0 < length dst `min` length (appended ps) ∧
    queued b' = drop (length dst `min` length (appended ps)) (appended ps).
Proof.
  intros b k ps b1 sched dst [segs H]%reachable_holds Hc Hq
    Hd%nonempty_length Hp Hne.
  rewrite (queued_holds _ _ H) in Hq.
  destruct (ReadWithContext_during_idle_prefix k dst b segs H Hc Hq Hd)
    as (b2 & segs2 & H2 & Hq2 & Hc2 & ->).
  destruct (produce_transfer ps b segs b1 b2 segs2 H H2 ltac:(congruence) Hp)
    as (b3 & Hp3 & _).
  destruct (produce_holds _ _ _ _ H2 Hp3) as (segs3 & H3 & Hq3 & _).
  rewrite Hq2 in Hq3. simpl in Hq3.
  destruct (ReadWithContext_during_cons b2 ps b3 segs3 dst Hp3 H3 Hd)
    as (b4 & segs4 & _ & _ & _ & ->).
  rewrite Hq3.
  assert (Hm : 0 < length dst `min` length (appended ps)).
  { destruct (appended ps); simpl; [done|lia]. }
  rewrite decide_True by auto.
  destruct (closed b3) eqn:Hc3.
  - destruct (ReadWithContext_loop_closed_data [] b3 segs3 dst 0 H3 Hc3 Hd)
      as (b' & segs' & -> & H' & Hq' & _).
    rewrite Hq3 in Hq' |- *. rewrite decide_True by done.
    exists b'. split_and!; [done..|]. by rewrite (queued_holds _ _ H').
  - destruct (ReadWithContext_loop_open_data b3 segs3 dst H3 Hc3 Hd)
      as (b' & segs' & -> & H' & Hq' & _).
    rewrite Hq3 in Hq' |- *. rewrite decide_True by done.
    exists b'. split_and!; [done..|]. by rewrite (queued_holds _ _ H').
Qed.

Lemma read_wakes_on_write_witness :
  ∃ b',
    ReadWithContext_during
      (idle 3 ++ ([PWrite [Byte.x61; Byte.x62; Byte.x63]], RecvData) :: [])
      newBuffer [Byte.x00; Byte.x00] 0 =
      Ret (b', [Byte.x61; Byte.x62], 2, None) ∧
    0 < 2 ∧
    queued b' = [Byte.x63].
Proof.
  apply (read_wakes_on_write newBuffer 3
           [PWrite [Byte.x61; Byte.x62; Byte.x63]] abc_buffer []
           [Byte.x00; Byte.x00] reachable_new).
  - reflexivity.
  - reflexivity.
  - discriminate.
  - reflexivity.
  - discriminate.
Defined.

(** X14: a blocked read is woken by [eof].  A call on a reachable open
    buffer with nothing queued loops for as long as the producer does
    nothing; at the first iteration before which the producer has closed
    the buffer without appending a byte, it returns (0, io.EOF), the
    destination untouched. *)
Theorem read_wakes_on_eof :
  ∀ (b : buffer) (k : nat) (ps : list producer_call) b1
    (sched : list (list producer_call * select_case)) (dst : bytes),
  reachable b → closed b = false → queued b = [] → dst ≠ [] →
  produce b ps = Ret b1 → closed b1 = true → appended ps = [] →
  ∃ b',
    ReadWithContext_during (idle k ++ (ps, RecvData) :: sched) b dst 0 =
      Ret (b', dst, 0, Some io_EOF) ∧
    closed b' = true ∧ queued b' = [].
Proof.
  intros b k ps b1 sched dst [segs H]%reachable_holds Hc Hq
    Hd%nonempty_length Hp Hc1 Hap.
  rewrite (queued_holds _ _ H) in Hq.
  destruct (ReadWithContext_during_idle_prefix k dst b segs H Hc Hq Hd)
    as (b2 & segs2 & H2 & Hq2 & Hc2 & ->).
  destruct (produce_transfer ps b segs b1 b2 segs2 H H2 ltac:(congruence) Hp)
    as (b3 & Hp3 & Hc3).
  rewrite Hc1 in Hc3.
  destruct (produce_holds _ _ _ _ H2 Hp3) as (segs3 & H3 & Hq3 & _).
  rewrite Hq2, Hap in Hq3. simpl in Hq3.
  destruct (ReadWithContext_during_cons b2 ps b3 segs3 dst Hp3 H3 Hd)
    as (b4 & segs4 & _ & _ & _ & ->).
  rewrite decide_True by auto.
  destruct (ReadWithContext_loop_closed_data [] b3 segs3 dst 0 H3 Hc3 Hd)
    as (b' & segs' & -> & H' & Hq' & Hc').
  rewrite Hq3 in Hq' |- *. simpl. rewrite Nat.min_0_r, drop_0. simpl.
  exists b'. split_and!; [done..|].
  rewrite (queued_holds _ _ H'), Hq'. by rewrite drop_nil.
Qed.

Lemma read_wakes_on_eof_witness :
  ∃ b',
    ReadWithContext_during (idle 2 ++ ([PEof], RecvData) :: []) newBuffer
      [Byte.x00] 0 = Ret (b', [Byte.x00], 0, Some io_EOF) ∧
    closed b' = true ∧ queued b' = [].
Proof.
  apply (read_wakes_on_eof newBuffer 2 [PEof]
           (Buffer [Element [] None] ChClosed ChClosed (Some 0) (Some 0) true)
           [] [Byte.x00] reachable_new).
  - reflexivity.
  - reflexivity.
  - discriminate.
  - reflexivity.
  - reflexivity.
  - reflexivity.
Defined.

(** X15: whatever the producer does while a call with a non-empty
    destination is in progress, and whatever its selects take, a call that
    returns on a reachable buffer reports at least one byte and a nil
    error, or no byte and io.EOF with the buffer left closed and empty and
    the destination untouched, or no byte and context.Canceled. *)
Theorem ReadWithContext_during_reports :
  ∀ (b : buffer) (sched : list (list producer_call * select_case))
    (dst : bytes) b' dst' n err,
  reachable b → dst ≠ [] →
  ReadWithContext_during sched b dst 0 = Ret (b', dst', n, err) →
  length dst' = length dst ∧
  ((err = None ∧ 0 < n ∧ n ≤ length dst) ∨
   (err = Some io_EOF ∧ n = 0 ∧ closed b' = true ∧ queued b' = [] ∧
    dst' = dst) ∨
   (err = Some context_Canceled ∧ n = 0)).
Proof.
  intros b sched dst b' dst' n err [segs H]%reachable_holds
    Hd%nonempty_length Hrun.
  destruct (ReadWithContext_during_result _ _ _ _ _ _ _ _ _ H Hd Hrun)
    as (Hl & segs' & H' & Hres).
  split; [done|]. rewrite (queued_holds _ _ H').
  destruct Hres as [?|[?|(? & Hn)]]; [by left|by right; left|].
  right; right. split; [done|]. by destruct Hn.
Qed.

Lemma ReadWithContext_during_reports_witness :
  length [Byte.x61] = length [Byte.x00] ∧
  ((@None error = None ∧ 0 < 1 ∧ 1 ≤ length [Byte.x00]) ∨
   (@None error = Some io_EOF ∧ 1 = 0 ∧
    closed (Buffer [Element [] (Some 1);
                    Element [Byte.x62; Byte.x63] None]
              ChClosed ChClosed (Some 1) (Some 1) true) = true ∧
    queued (Buffer [Element [] (Some 1);
                    Element [Byte.x62; Byte.x63] None]
              ChClosed ChClosed (Some 1) (Some 1) true) = [] ∧
    [Byte.x61] = [Byte.x00]) ∨
   (@None error = Some context_Canceled ∧ 1 = 0)).
Proof.
  apply (ReadWithContext_during_reports newBuffer
           [([], RecvData);
            ([PWrite [Byte.x61; Byte.x62; Byte.x63]; PEof], RecvData)]
           [Byte.x00] _ _ _ _ reachable_new).
  - discriminate.
  - reflexivity.
Defined.

(** X16: conservation with the producer at work.  Take a call on a
    reachable buffer that is still running after the iterations of [pre]
    and returns at the next iteration [e], none of its selects taking
    [ctx.Done()].  The bytes it delivered followed by the bytes it leaves
    queued are the bytes queued when it started followed by the bytes the
    producer appended during all those iterations, [e] included, in
    order. *)
Theorem ReadWithContext_during_conserves :
  ∀ (b : buffer) (pre : list (list producer_call * select_case))
    (e : list producer_call * select_case) (dst : bytes) b' dst' n err,
  reachable b → Forall (λ e, e.2 = RecvData) (pre ++ [e]) →
  ReadWithContext_during pre b dst 0 = NoRet →
  ReadWithContext_during (pre ++ [e]) b dst 0 = Ret (b', dst', n, err) →
  take n dst' ++ queued b' =
    queued b ++ concat ((λ e, appended e.1) <$> (pre ++ [e])).
Proof.
  intros b pre e dst b' dst' n err [segs H]%reachable_holds Hall Hnot Hrun.
  destruct (ReadWithContext_during_conservation _ _ _ _ _ _ _ _ _ H Hall
              Hnot Hrun) as (segs' & H' & Hq).
  by rewrite (queued_holds _ _ H), (queued_holds _ _ H').
Qed.

Lemma ReadWithContext_during_conserves_witness :
  take 2 [Byte.x61; Byte.x62] ++
    queued (Buffer [Element [] (Some 1); Element [] (Some 2);
                    Element [Byte.x63] None]
              ChOpen ChOpen (Some 2) (Some 2) false) =
  queued newBuffer ++
    concat ((λ e, appended e.1) <$>
              ([([], RecvData); ([PWrite []], RecvData)] ++
               [([PWrite [Byte.x61; Byte.x62; Byte.x63]], RecvData)])).
Proof.
  apply (ReadWithContext_during_conserves newBuffer
           [([], RecvData); ([PWrite []], RecvData)]
           ([PWrite [Byte.x61; Byte.x62; Byte.x63]], RecvData)
           [Byte.x00; Byte.x00] _ [Byte.x61; Byte.x62] 2 None reachable_new).
  - repeat constructor.
  - reflexivity.
  - reflexivity.
Defined.

(** ** The deadline wrappers composed *)

(** X17: [tryCancelReader] applied to a [*bufReaderWithDeadline] reaches
    the wrapped object: it returns the error, and leaves the wrapped object
    in the state, that [tryCancelReader] applied to the wrapped object
    itself gives, and keeps the buffered bytes of the wrapper; so it
    returns [unsupported] when the wrapped object has no
    [SetReadDeadline], although the wrapper has one.  Likewise for
    [tryCancelWriter] and [*bufWriterWithDeadline]. *)
Theorem tryCancel_through_wrapper :
  ∀ (S : Type) (r : bufReaderWithDeadline S) (w : bufWriterWithDeadline S),
  tryCancelReader (bufReaderWithDeadline_Reader r) =
    (bufReaderWithDeadline_Reader
       (BufReaderWithDeadline (Reader r)
          (tryCancelReader (UnderlyingReader r)).1.1),
     (tryCancelReader (UnderlyingReader r)).1.2,
     [CallSetReadDeadline (Unix 0 0)]) ∧
  tryCancelWriter (bufWriterWithDeadline_Writer w) =
    (bufWriterWithDeadline_Writer
       (BufWriterWithDeadline (Writer w)
          (tryCancelWriter (UnderlyingWriter w)).1.1),
     (tryCancelWriter (UnderlyingWriter w)).1.2,
     [CallSetWriteDeadline (Unix 0 0)]).
Proof.
  intros S [br [rs rset]] [bw [ws wset]]. split.
  - unfold tryCancelReader, bufReaderWithDeadline_Reader, SetReadDeadline.
    simpl. destruct rset as [set|]; [|done].
    by destruct (set rs (Unix 0 0)).
  - unfold tryCancelWriter, bufWriterWithDeadline_Writer, SetWriteDeadline.
    simpl. destruct wset as [set|]; [|done].
    by destruct (set ws (Unix 0 0)).
Qed.

(** X18: a deadline setter of a wrapper keeps the buffered bytes of the
    wrapper and the methods of the wrapped object, so a second call acts on
    the state the first one left: without the capability both calls return
    [unsupported] and the wrapper is as at the start; with it, the second
    call returns what the underlying setter returns on the state its first
    application left. *)
Theorem deadline_setters_twice :
  ∀ (S : Type) (r : bufReaderWithDeadline S) (w : bufWriterWithDeadline S)
    (t1 t2 : Time),
  ((reader_SetReadDeadline (UnderlyingReader r) = None →
    SetReadDeadline (SetReadDeadline r t1).1.1 t2 =
      (r, Some unsupported, [])) ∧
   (∀ set, reader_SetReadDeadline (UnderlyingReader r) = Some set →
      SetReadDeadline (SetReadDeadline r t1).1.1 t2 =
        (BufReaderWithDeadline (Reader r)
           (IoReader
              (set (set (reader_state (UnderlyingReader r)) t1).1 t2).1
              (Some set)),
         (set (set (reader_state (UnderlyingReader r)) t1).1 t2).2,
         [CallSetReadDeadline t2]))) ∧
  ((writer_SetWriteDeadline (UnderlyingWriter w) = None →
    SetWriteDeadline (SetWriteDeadline w t1).1.1 t2 =
      (w, Some unsupported, [])) ∧
   (∀ set, writer_SetWriteDeadline (UnderlyingWriter w) = Some set →
      SetWriteDeadline (SetWriteDeadline w t1).1.1 t2 =
        (BufWriterWithDeadline (Writer w)
           (IoWriter
              (set (set (writer_state (UnderlyingWriter w)) t1).1 t2).1
              (Some set)),
         (set (set (writer_state (UnderlyingWriter w)) t1).1 t2).2,
         [CallSetWriteDeadline t2]))).
Proof.
  intros S [br [rs rset]] [bw [ws wset]] t1 t2. split.
  - unfold SetReadDeadline. simpl. split.
    + by intros ->.
    + intros set ->. destruct (set rs t1) as [s1 e1]. simpl.
      by destruct (set s1 t2).
  - unfold SetWriteDeadline. simpl. split.
    + by intros ->.
    + intros set ->. destruct (set ws t1) as [s1 e1]. simpl.
      by destruct (set s1 t2).
Qed.

Lemma deadline_setters_twice_witness :
  SetReadDeadline
    (SetReadDeadline (newBufReaderWithDeadline (memReader [Byte.x61]))
       (Unix 5 0)).1.1 (Unix 7 0) =
    (newBufReaderWithDeadline (memReader [Byte.x61]), Some unsupported, []) ∧
  SetWriteDeadline
    (SetWriteDeadline (newBufWriterWithDeadline (connWriter (Conn None None)))
       (Unix 5 0)).1.1 (Unix 7 0) =
    (newBufWriterWithDeadline (connWriter (Conn None (Some (Unix 7 0)))),
     None, [CallSetWriteDeadline (Unix 7 0)]).
Proof.
  split.
  - destruct (deadline_setters_twice bytes
                (newBufReaderWithDeadline (memReader [Byte.x61]))
                (newBufWriterWithDeadline (memWriter []))
                (Unix 5 0) (Unix 7 0)) as [[Habsent _] _].
    apply Habsent. reflexivity.
  - destruct (deadline_setters_twice conn
                (newBufReaderWithDeadline (connReader (Conn None None)))
                (newBufWriterWithDeadline (connWriter (Conn None None)))
                (Unix 5 0) (Unix 7 0)) as [_ [_ Hpresent]].
    apply (Hpresent conn_SetWriteDeadline). reflexivity.
Defined.
